(** * pf-fact-check: a shallow embedding of [pf-fact-check.py]

    The script fetches an article, pulls the double-quoted statements out of
    its paragraphs, looks for speaker names in them, asks Politifact for the
    fact checks of each speaker page by page, averages the ratings and writes
    the scores to [speaker_scores.json].

    Modelling choices, all visible in the definitions below:
    - a Python [str] is a [string]: a sequence of characters with code points
      0..255, classified as Python's [re] and [str.strip] classify them;
    - a Python number is an [Int] (a [Z]) or a [Float]; a float is the
      rational that a binary64 number is, and every operation on floats
      rounds its exact result to the nearest such number, ties to even;
      the exponent is not bounded, sums and means of ratings staying far
      from the ends of the binary64 range;
      [sum] adds from left to right, one rounding for each addition, as
      CPython does up to version 3.11 (later versions carry a correction
      term along when they sum floats);
    - the network and the standard output are part of an explicit [world]
      that every effectful function threads through; of the file system
      the world keeps the calls the script makes of it, in their order, and
      decides which of them are refused: what a call that is accepted
      does to the disk is the operating system's and not modelled;
    - an exception is a [Raised] outcome; [while True] takes fuel and
      yields [OutOfFuel] when it runs out. *)

From Stdlib Require Import Ascii String QArith Lqa Qround Qabs Qpower.
From stdpp Require Import gmap strings list pretty.

Open Scope string_scope.
Open Scope list_scope.

(** ** Text *)

Module Text.

Definition code (c : ascii) : nat := nat_of_ascii c.

Definition between (lo hi : nat) (c : ascii) : bool :=
  (lo <=? code c)%nat && (code c <=? hi)%nat.

(** [[A-Z]] and [[a-z]]: ASCII ranges, also for a [str] pattern. *)
Definition is_upper : ascii → bool := between 65 90.
Definition is_lower : ascii → bool := between 97 122.
Definition is_digit : ascii → bool := between 48 57.

(** [\s] of a [str] pattern and the characters [str.strip()] removes:
    [Py_UNICODE_ISSPACE], here on the code points below 256. *)
Definition is_space (c : ascii) : bool :=
  between 9 13 c || between 28 32 c
  || (code c =? 133)%nat || (code c =? 160)%nat.

(** The word characters of [\b]: alphanumeric or underscore. *)
Definition is_word (c : ascii) : bool :=
  is_upper c || is_lower c || is_digit c || (code c =? 95)%nat
  || (code c =? 170)%nat || (code c =? 181)%nat || (code c =? 186)%nat
  || between 178 179 c || (code c =? 185)%nat || between 188 190 c
  || between 192 214 c || between 216 246 c || between 248 255 c.

Definition is_quote (c : ascii) : bool := (code c =? 34)%nat.
Definition not_quote (c : ascii) : bool := negb (is_quote c).

Definition quote : ascii := ascii_of_nat 34.

(** [sep.join(items)] *)
Definition join (sep : string) (items : list string) : string :=
  String.concat sep items.

(** Iterating over a [str] yields its characters, each a [str] of
    length one. *)
Fixpoint characters (s : string) : list string :=
  match s with
  | EmptyString => []
  | String c s' => String c EmptyString :: characters s'
  end.

Fixpoint lstrip (s : string) : string :=
  match s with
  | String c s' => if is_space c then lstrip s' else s
  | EmptyString => EmptyString
  end.

Fixpoint rstrip (s : string) : string :=
  match s with
  | String c s' =>
      match rstrip s' with
      | EmptyString => if is_space c then EmptyString else String c EmptyString
      | r => String c r
      end
  | EmptyString => EmptyString
  end.

(** [s.strip()] *)
Definition strip (s : string) : string := rstrip (lstrip s).

End Text.

(** ** Regular expressions

    The two patterns of the script are sequences of character classes,
    greedy repetitions of a class and word boundaries; [re] matches them by
    backtracking, a repetition first taking all it can. *)

Module Re.

Inductive atom : Type :=
| One (cls : ascii → bool)
| Many (cls : ascii → bool)
| Boundary.

(** A pattern and, when it has a capturing group, the atoms the group
    spans: the index of the first one and how many. *)
Record pattern : Type := Pattern {
  atoms : list atom;
  group : option (nat * nat)
}.

Definition word_before (prev : option ascii) : bool :=
  match prev with Some c => Text.is_word c | None => false end.

Definition word_after (s : string) : bool :=
  match s with String c _ => Text.is_word c | EmptyString => false end.

(** [\b]: exactly one of the two neighbours is a word character. *)
Definition at_boundary (prev : option ascii) (s : string) : bool :=
  xorb (word_before prev) (word_after s).

(** [cls*] followed by [k]: the longest run first, then one character
    less at a time. *)
Fixpoint greedy {R : Type} (cls : ascii → bool)
    (k : option ascii → string → option R)
    (prev : option ascii) (s : string) : option (string * R) :=
  let stop := pair EmptyString <$> k prev s in
  match s with
  | String c s' =>
      if cls c then
        match greedy cls k (Some c) s' with
        | Some (w, r) => Some (String c w, r)
        | None => stop
        end
      else stop
  | EmptyString => stop
  end.

(** Matches the atoms at the start of [s], [prev] being the character
    before it: the text each atom took and what is left of [s]. *)
Fixpoint match_here (p : list atom) (prev : option ascii) (s : string)
    : option (list string * string) :=
  match p with
  | [] => Some ([], s)
  | One cls :: p' =>
      match s with
      | String c s' =>
          if cls c then
            '(ws, rest) ← match_here p' (Some c) s';
            Some (String c EmptyString :: ws, rest)
          else None
      | EmptyString => None
      end
  | Many cls :: p' =>
      '(w, (ws, rest)) ← greedy cls (match_here p') prev s;
      Some (w :: ws, rest)
  | Boundary :: p' =>
      if at_boundary prev s then
        '(ws, rest) ← match_here p' prev s;
        Some (EmptyString :: ws, rest)
      else None
  end.

Definition whole (ws : list string) : string := String.concat EmptyString ws.

(** The non-overlapping matches from left to right; [skip] counts the
    characters of the last match still to be passed over. *)
Fixpoint scan (p : list atom) (skip : nat) (prev : option ascii)
    (s : string) : list (list string) :=
  match skip with
  | S n =>
      match s with
      | String c s' => scan p n (Some c) s'
      | EmptyString => []
      end
  | O =>
      match match_here p prev s with
      | Some (ws, _) =>
          ws :: match s with
                | String c s' =>
                    scan p (String.length (whole ws) - 1) (Some c) s'
                | EmptyString => []
                end
      | None =>
          match s with
          | String c s' => scan p 0 (Some c) s'
          | EmptyString => []
          end
      end
  end.

(** What [findall] reports for a match: the group when the pattern has
    one, the whole match otherwise. *)
Definition report (g : option (nat * nat)) (ws : list string) : string :=
  match g with
  | Some (i, n) => whole (take n (drop i ws))
  | None => whole ws
  end.

(** [re.findall(pattern, s)] *)
Definition findall (p : pattern) (s : string) : list string :=
  report (group p) <$> scan (atoms p) 0 None s.

End Re.

(** ** The pure steps of the pipeline *)

(** The pattern of [get_article_text]: a double quote, a group of any
    number of characters other than a double quote, a double quote. *)
Definition quote_pattern : Re.pattern :=
  Re.Pattern [Re.One Text.is_quote; Re.Many Text.not_quote; Re.One Text.is_quote]
             (Some (1, 1)).

(** [r'\b[A-Z][a-z]*\s[A-Z][a-z]*\b'] *)
Definition speaker_pattern : Re.pattern :=
  Re.Pattern [Re.Boundary; Re.One Text.is_upper; Re.Many Text.is_lower;
              Re.One Text.is_space;
              Re.One Text.is_upper; Re.Many Text.is_lower; Re.Boundary]
             None.

(** What [' '.join(article_text)] can be given: [identify_speakers] is
    written for the list of statements, its caller hands it a [str]. *)
Inductive iterable : Type :=
| Strs (items : list string)
| Str (s : string).

Definition iter (x : iterable) : list string :=
  match x with
  | Strs items => items
  | Str s => Text.characters s
  end.

Definition identify_speakers (article_text : iterable) : list string :=
  let matches := Re.findall speaker_pattern (Text.join " " (iter article_text)) in
  let speakers := elements (list_to_set matches : gset string) in
  speakers.

(** ** Numbers *)

(** Binary64 arithmetic on the rationals: rounding to 53 significant bits,
    to the nearest and to the even one of two that are as near. *)
Module Binary64.

Definition pow2 (e : Z) : Q := (2 ^ e)%Q.

(** The exponent of a positive rational: [2 ^ e <= q < 2 ^ (e + 1)]. *)
Definition exponent (q : Q) : Z :=
  let d := (Z.log2 (Qnum q) - Z.log2 (Zpos (Qden q)))%Z in
  if Qle_bool (pow2 d) q then d else (d - 1)%Z.

(** The integer nearest to [x], the even one of two that are as near. *)
Definition nearest_even (x : Q) : Z :=
  let f := Qfloor x in
  match (x - inject_Z f ?= 1 # 2)%Q with
  | Lt => f
  | Gt => (f + 1)%Z
  | Eq => if Z.even f then f else (f + 1)%Z
  end.

(** The distance between two binary64 numbers around a positive [q]:
    the unit in the last of 53 bits. *)
Definition ulp (q : Q) : Q := pow2 (exponent q - 52).

(** A positive rational rounded to 53 significant bits. *)
Definition round_pos (q : Q) : Q :=
  Qred (inject_Z (nearest_even (q / ulp q)) * ulp q).

(** The binary64 number nearest to [q], ties to even; exponents are not
    bounded, so there is neither overflow nor a subnormal number. *)
Definition round (q : Q) : Q :=
  match (q ?= 0)%Q with
  | Eq => 0%Q
  | Gt => round_pos q
  | Lt => (- round_pos (- q))%Q
  end.

End Binary64.

Import Binary64.

Module Num.

Inductive number : Type :=
| Int (z : Z)
| Float (q : Q).

(** The rational a number is: [Float q] is the binary64 number nearest to
    [q], the float that the literal [q] reads as and that an operation
    with the exact result [q] returns. *)
Definition value (n : number) : Q :=
  match n with
  | Int z => inject_Z z
  | Float q => Binary64.round q
  end.

(** Two numbers are the same when they have the same type and the same
    value: [Float (1 # 2)] and [Float 0.5] are. *)
Definition same (a b : number) : Prop :=
  match a, b with
  | Int x, Int y => x = y
  | Float _, Float _ => (value a == value b)%Q
  | _, _ => False
  end.

(** [float(n)] *)
Definition to_float (n : number) : Q :=
  match n with
  | Int z => Binary64.round (inject_Z z)
  | Float q => Binary64.round q
  end.

(** [a + b]: an [int] only when both are, else the sum of the two as
    floats, rounded. *)
Definition add (a b : number) : number :=
  match a, b with
  | Int x, Int y => Int (x + y)
  | _, _ => Float (to_float a + to_float b)%Q
  end.

(** [sum(l)]: from the [int] zero, left to right. *)
Definition sum (l : list number) : number := fold_left add l (Int 0).

(** [a / n] for a length [n]: always a [float], the quotient of two
    [int]s rounded once, that of a float by the float of [n] else. The
    script divides by the length of a list it has found non-empty. *)
Definition truediv (a : number) (n : nat) : number :=
  match a with
  | Int x => Float (inject_Z x / inject_Z (Z.of_nat n))%Q
  | Float q =>
      Float (Binary64.round q / Binary64.round (inject_Z (Z.of_nat n)))%Q
  end.

End Num.

Import Num.

(** ** Scoring *)

(** A record [{'title': ..., 'rating': ...}] *)
Record statement : Type := Statement {
  title : string;
  rating : string
}.

Definition rating_values : gmap string number :=
  list_to_map [("True", Int 1); ("Mostly True", Float 0.8);
               ("Half True", Float 0.5); ("Mostly False", Float 0.2);
               ("False", Int 0); ("Pants on Fire!", Int (-1))].

(** [rating_values.get(label, 0)] *)
Definition rating_value (label : string) : number :=
  default (Int 0) (rating_values !! label).

Definition calculate_speaker_score (statements : list statement) : number :=
  let scores := (λ st, rating_value (rating st)) <$> statements in
  match scores with
  | [] => Int 0
  | _ :: _ => truediv (sum scores) (length scores)
  end.

(** ** The world: network, standard output, calls of the file system *)

(** What the script reads from a parsed page: the text of every [p]
    element, and of every [li] of class [o-listicle__item] the text of its
    quote link and the [alt] of the image of its meter, [None] where an
    element or the attribute on the way is missing. *)
Record item : Type := Item {
  statement_quote : option string;
  meter_alt : option string
}.

Record document : Type := Document {
  paragraphs : list string;
  listicle : list item
}.

(** What a GET comes to: [requests.get] raises with text [e], or there is
    an answer; [error] is the text of the exception [raise_for_status]
    raises for it when its status is an error. *)
Inductive response : Type :=
| Unreachable (e : string)
| Answer (status : nat) (error : string) (body : document).

(** What the script asks of the file system: [os.makedirs(name,
    exist_ok=True)], [open(path, 'w')], and of the file opened at [path]
    [file.write(text)] and the [file.close()] that ends the [with] block. *)
Inductive os_call : Type :=
| Makedirs (name : string)
| Open (path : string)
| Write (path text : string)
| Close (path : string).

(** [refused done call] tells whether the system, after the calls [done],
    refuses [call], which then raises an [OSError]. *)
Record world : Type := World {
  net : string → response;
  refused : list os_call → os_call → bool;
  requests : list string;
  stdout : list string;
  calls : list os_call
}.

(** The world after more requests, more printed lines, more calls. *)
Definition after_requests (w : world) (urls : list string) : world :=
  World (net w) (refused w) (requests w ++ urls) (stdout w) (calls w).

Definition after_print (w : world) (lines : list string) : world :=
  World (net w) (refused w) (requests w) (stdout w ++ lines) (calls w).

Definition after_calls (w : world) (cs : list os_call) : world :=
  World (net w) (refused w) (requests w) (stdout w) (calls w ++ cs).

Inductive exn : Type :=
| RequestException (e : string)
| ParseError
| OSError.

Inductive outcome (A : Type) : Type :=
| Return (a : A)
| Raised (e : exn)
| OutOfFuel.

Arguments Return {A} a.
Arguments Raised {A} e.
Arguments OutOfFuel {A}.

Definition M (A : Type) : Type := world → outcome A * world.

#[global] Instance M_ret : MRet M := λ A a w, (Return a, w).

#[global] Instance M_bind : MBind M := λ A B k m w,
  match m w with
  | (Return a, w') => k a w'
  | (Raised e, w') => (Raised e, w')
  | (OutOfFuel, w') => (OutOfFuel, w')
  end.

(** [try: m except requests.RequestException as e: h e] *)
Definition try_except {A : Type} (m : M A) (h : string → M A) : M A := λ w,
  match m w with
  | (Raised (RequestException e), w') => h e w'
  | r => r
  end.

Definition print (line : string) : M unit := λ w,
  (Return tt, after_print w [line]).

(** [requests.get(url)] *)
Definition requests_get (url : string) : M response := λ w,
  let w' := after_requests w [url] in
  match net w url with
  | Unreachable e => (Raised (RequestException e), w')
  | r => (Return r, w')
  end.

(** The statuses [raise_for_status] raises for. *)
Definition is_error (status : nat) : bool :=
  (400 <=? status)%nat && (status <? 600)%nat.

(** [response.raise_for_status()], then the parsed [response.text] *)
Definition raise_for_status (r : response) : outcome document :=
  match r with
  | Unreachable e => Raised (RequestException e)
  | Answer status error body =>
      if is_error status then Raised (RequestException error)
      else Return body
  end.

Definition lift {A : Type} (o : outcome A) : M A := λ w, (o, w).

(** ** Fetching the article *)

Definition get_article_text (url : string) : M (option (list string)) :=
  try_except
    (response ← requests_get url;
     soup ← lift (raise_for_status response);
     let article_text := Text.join " " (paragraphs soup) in
     let statements := Re.findall quote_pattern article_text in
     mret (Some statements))
    (λ e, print ("Error fetching article: " +:+ e);; mret None).

(** ** Looking a speaker up *)

Definition search_url (page : nat) (speaker_name : string) : string :=
  "https://www.politifact.com/factchecks/list/?page=" +:+ pretty page
    +:+ "&speaker=" +:+ speaker_name.

(** The body of [for result in results]: a missing element or attribute
    raises ([AttributeError], [TypeError] or [KeyError]). *)
Definition read_result (result : item) : outcome statement :=
  match statement_quote result with
  | None => Raised ParseError
  | Some quote_text =>
      match meter_alt result with
      | None => Raised ParseError
      | Some alt =>
          Return (Statement (Text.strip quote_text) (Text.strip alt))
      end
  end.

Fixpoint for_results (results : list item) (statements : list statement)
    : outcome unit * list statement :=
  match results with
  | [] => (Return tt, statements)
  | result :: rest =>
      match read_result result with
      | Return st => for_results rest (statements ++ [st])
      | Raised e => (Raised e, statements)
      | OutOfFuel => (OutOfFuel, statements)
      end
  end.

(** [while True] of [scrape_politifact_for_speaker], with its two
    variables; [Return tt] is the [break]. The list is handed back with
    every outcome: it is what the handler around the loop returns. *)
Fixpoint while_true (fuel : nat) (speaker_name : string) (page : nat)
    (statements : list statement) (w : world)
    : outcome unit * list statement * world :=
  match fuel with
  | O => (OutOfFuel, statements, w)
  | S fuel' =>
      match requests_get (search_url page speaker_name) w with
      | (Return response, w1) =>
          match raise_for_status response with
          | Return soup =>
              match listicle soup with
              | [] => (Return tt, statements, w1)
              | results =>
                  match for_results results statements with
                  | (Return _, statements') =>
                      while_true fuel' speaker_name (page + 1) statements' w1
                  | (o, statements') => (o, statements', w1)
                  end
              end
          | Raised e => (Raised e, statements, w1)
          | OutOfFuel => (OutOfFuel, statements, w1)
          end
      | (Raised e, w1) => (Raised e, statements, w1)
      | (OutOfFuel, w1) => (OutOfFuel, statements, w1)
      end
  end.

Definition scrape_politifact_for_speaker (fuel : nat) (speaker_name : string)
    : M (list statement) := λ w,
  match while_true fuel speaker_name 1 [] w with
  | (Return _, statements, w') => (Return statements, w')
  | (Raised (RequestException e), statements, w') =>
      (print ("Error scraping Politifact for speaker " +:+ speaker_name
                +:+ ": " +:+ e);;
       mret statements) w'
  | (Raised e, _, w') => (Raised e, w')
  | (OutOfFuel, _, w') => (OutOfFuel, w')
  end.

(** ** The speakers of an article *)

(** A [dict] with [str] keys, in insertion order. *)
Definition dict (V : Type) : Type := list (string * V).

(** [d[k] = v] *)
Fixpoint dict_set {V : Type} (k : string) (v : V) (d : dict V) : dict V :=
  match d with
  | [] => [(k, v)]
  | (k', v') :: d' =>
      if String.eqb k' k then (k', v) :: d' else (k', v') :: dict_set k v d'
  end.

Fixpoint for_speakers (fuel : nat) (speakers : list string)
    (speaker_scores : dict number) : M (dict number) :=
  match speakers with
  | [] => mret speaker_scores
  | speaker :: rest =>
      statements ← scrape_politifact_for_speaker fuel speaker;
      let score := calculate_speaker_score statements in
      for_speakers fuel rest (dict_set speaker score speaker_scores)
  end.

Definition analyze_speakers_in_article (fuel : nat) (url : string)
    : M (dict number) :=
  article_text ← get_article_text url;
  match article_text with
  | None => mret []
  | Some article_text =>
      let speakers := identify_speakers (Str (Text.join " " article_text)) in
      for_speakers fuel speakers []
  end.

(** ** Writing the result *)

Module Os.

Definition sep : ascii := ascii_of_nat 47.

Definition starts_with_sep (s : string) : bool :=
  match s with
  | String c _ => Ascii.eqb c sep
  | EmptyString => false
  end.

Fixpoint ends_with_sep (s : string) : bool :=
  match s with
  | EmptyString => false
  | String c EmptyString => Ascii.eqb c sep
  | String _ s' => ends_with_sep s'
  end.

(** [os.path.join(a, b)] *)
Definition path_join (a b : string) : string :=
  if starts_with_sep b then b
  else if String.eqb a EmptyString || ends_with_sep a then a +:+ b
  else a +:+ String sep b.

(** A call of the system: it is made, and raises when it is refused. *)
Definition call (c : os_call) : M unit := λ w,
  let w' := after_calls w [c] in
  if refused w (calls w) c then (Raised OSError, w') else (Return tt, w').

(** [os.makedirs(name, exist_ok=True)] *)
Definition makedirs (name : string) : M unit := call (Makedirs name).

(** [open(path, 'w')] *)
Definition open_w (path : string) : M unit := call (Open path).

(** [file.write(text)] on the file opened at [path] *)
Definition write (path text : string) : M unit := call (Write path text).

(** [file.close()] on the file opened at [path] *)
Definition close (path : string) : M unit := call (Close path).

End Os.

(** [try: m finally: f], as far as the script needs it: [f] runs however
    [m] ends, and what [f] raises is raised. *)
Definition finally {A : Type} (m : M A) (f : M unit) : M A := λ w,
  match m w with
  | (OutOfFuel, w') => (OutOfFuel, w')
  | (r, w') =>
      match f w' with
      | (Return _, w'') => (r, w'')
      | (Raised e, w'') => (Raised e, w'')
      | (OutOfFuel, w'') => (OutOfFuel, w'')
      end
  end.

(** [with open(path, 'w') as file: body]: the file is closed however the
    body ends. *)
Definition with_open (path : string) (body : M unit) : M unit :=
  Os.open_w path;; finally body (Os.close path).

Module Json.

Definition backslash : ascii := ascii_of_nat 92.
Definition newline : string := String (ascii_of_nat 10) EmptyString.

Definition hex_digit (n : nat) : ascii :=
  default "0"%char (list_ascii_of_string "0123456789abcdef" !! n).

(** One character of a string under [ensure_ascii]. *)
Definition escape (c : ascii) : string :=
  let n := Text.code c in
  let short x := String backslash (String x EmptyString) in
  if (n =? 34)%nat then short Text.quote
  else if (n =? 92)%nat then short backslash
  else if (n =? 8)%nat then short "b"%char
  else if (n =? 12)%nat then short "f"%char
  else if (n =? 10)%nat then short "n"%char
  else if (n =? 13)%nat then short "r"%char
  else if (n =? 9)%nat then short "t"%char
  else if (n <? 32)%nat || (126 <? n)%nat then
    String backslash
      ("u00" +:+ String (hex_digit (n / 16))
                   (String (hex_digit (n mod 16)) EmptyString))
  else String c EmptyString.

Fixpoint escaped (s : string) : string :=
  match s with
  | EmptyString => EmptyString
  | String c s' => escape c +:+ escaped s'
  end.

Definition encode_str (s : string) : string :=
  String Text.quote (escaped s +:+ String Text.quote EmptyString).

Section Encoder.

(** [float.__repr__], the shortest decimal that reads back as the
    same float, given the rational the float is: not part of the script. *)
Variable float_repr : Q → string.

Definition encode_number (n : number) : string :=
  match n with
  | Int z => pretty z
  | Float _ => float_repr (value n)
  end.

Definition indent : string := "    ".

(** The pieces [json.dump(d, file, indent=4)] writes one by one. *)
Fixpoint members (first : bool) (d : dict number) : list string :=
  match d with
  | [] => []
  | (k, v) :: d' =>
      (if first then [] else ["," +:+ newline +:+ indent])
      ++ [encode_str k; ": "; encode_number v] ++ members false d'
  end.

Definition chunks (d : dict number) : list string :=
  match d with
  | [] => ["{}"]
  | _ :: _ => ["{"; newline +:+ indent] ++ members true d ++ [newline; "}"]
  end.

Fixpoint write_all (path : string) (pieces : list string) : M unit :=
  match pieces with
  | [] => mret tt
  | piece :: rest => Os.write path piece;; write_all path rest
  end.

(** [json.dump(d, file, indent=4)] *)
Definition dump (d : dict number) (path : string) : M unit :=
  write_all path (chunks d).

End Encoder.

End Json.

Section Program.

Variable float_repr : Q → string.

(** [main], after the arguments are parsed: [url] is required,
    [output] is [.] when it is not given. *)
Definition main (fuel : nat) (url output : string) : M unit :=
  speaker_scores ← analyze_speakers_in_article fuel url;
  let file_path := Os.path_join output "speaker_scores.json" in
  Os.makedirs output;;
  with_open file_path (Json.dump float_repr speaker_scores file_path);;
  print ("Speaker scores saved to " +:+ file_path).

End Program.

(** * The vocabulary of the properties *)

(** ** Scoring *)

(** The mean as the specification words it: the sum of the values over
    their count. *)
Definition arithmetic_mean (values : list Q) : Q :=
  (fold_right Qplus 0 values / inject_Z (Z.of_nat (length values)))%Q.

(** The value a record contributes to the score. *)
Definition mapped (st : statement) : Q := value (rating_value (rating st)).

(** A number between -1 and 1. *)
Definition unit_range (v : number) : Prop :=
  match v with
  | Int z => (-1 ≤ z ≤ 1)%Z
  | Float q => (-1 <= Binary64.round q <= 1)%Q
  end.

(** The float of a count. *)
Definition float_of_nat (k : nat) : Q := round (inject_Z (Z.of_nat k)).

(** A running sum of [k] numbers between -1 and 1. *)
Definition running (k : nat) (acc : number) : Prop :=
  match acc with
  | Int z => (- Z.of_nat k ≤ z ≤ Z.of_nat k)%Z
  | Float q => (- float_of_nat k <= round q <= float_of_nat k)%Q
  end.

(** ** Quoted statements *)

(** The pieces of a text between its double quotes: [n] quotes make
    [n + 1] pieces. *)
Fixpoint pieces (s : string) : list string :=
  match s with
  | EmptyString => [EmptyString]
  | String c s' =>
      if Text.is_quote c then EmptyString :: pieces s'
      else match pieces s' with
           | p :: ps => String c p :: ps
           | [] => [String c EmptyString]
           end
  end.

(** Quotes pair up from the left, so every second piece is enclosed by a
    pair, the last piece apart: no quote closes it. *)
Fixpoint enclosed (ps : list string) : list string :=
  match ps with
  | _ :: q :: rest =>
      match rest with
      | [] => []
      | _ :: _ => q :: enclosed rest
      end
  | _ => []
  end.

(** The substrings of a text enclosed in double quotation marks, in the
    order they occur. *)
Definition quoted_substrings (s : string) : list string := enclosed (pieces s).

(** The text before the first double quote and, when there is one, the
    text after it. *)
Fixpoint until_quote (s : string) : string * option string :=
  match s with
  | EmptyString => (EmptyString, None)
  | String c s' =>
      if Text.is_quote c then (EmptyString, Some s')
      else let '(q, r) := until_quote s' in (String c q, r)
  end.

(** A text between two double quotes. *)
Definition in_quotes (s : string) : string :=
  String Text.quote (s +:+ String Text.quote EmptyString).

(** The text of the specification's example. *)
Definition example_text : string :=
  "He said " +:+ in_quotes "hello" +:+ " and " +:+ in_quotes "world".

(** ** Speakers *)

(** A text joined character by character: a space after every character
    but the last. *)
Fixpoint spaced (s : string) : string :=
  match s with
  | EmptyString => EmptyString
  | String c EmptyString => String c EmptyString
  | String c s' => String c (String " " (spaced s'))
  end.

(** Of any two neighbours one is a space. *)
Fixpoint sparse (s : string) : Prop :=
  match s with
  | String a s' =>
      match s' with
      | String b _ => a = " "%char ∨ b = " "%char
      | EmptyString => True
      end ∧ sparse s'
  | EmptyString => True
  end.

(** A name made of two capital letters with a space between them. *)
Definition initials (name : string) : Prop :=
  ∃ a b, name = String a (String " " (String b EmptyString))
         ∧ Text.is_upper a = true ∧ Text.is_upper b = true.

Fixpoint every (cls : ascii → bool) (s : string) : Prop :=
  match s with
  | EmptyString => True
  | String c s' => cls c = true ∧ every cls s'
  end.

(** A capital letter followed by small letters, if any. *)
Definition capitalized (word : string) : Prop :=
  match word with
  | String a l => Text.is_upper a = true ∧ every Text.is_lower l
  | EmptyString => False
  end.

(** A run of two capitalized words: one white space character between
    them. *)
Definition two_capitalized_words (name : string) : Prop :=
  ∃ w1 sp w2,
    name = w1 +:+ String sp w2
    ∧ capitalized w1 ∧ Text.is_space sp = true ∧ capitalized w2.

(** ** Fetching and looking up *)

(** The text of the [RequestException] a GET with this response ends in,
    if it ends in one. *)
Definition failure (r : response) : option string :=
  match r with
  | Unreachable e => Some e
  | Answer status error _ => if is_error status then Some error else None
  end.

(** A result entry as the page shows it: the text of its quote link and
    the [alt] of its rating image. *)
Definition entry : Type := (string * string)%type.

Definition result_items (entries : list entry) : list item :=
  (λ e, Item (Some e.1) (Some e.2)) <$> entries.

(** The records the script makes of the entries. *)
Definition records (entries : list entry) : list statement :=
  (λ e, Statement (Text.strip e.1) (Text.strip e.2)) <$> entries.

(** The site answers [url] without an error status, with a page of these
    results. *)
Definition serves (w : world) (url : string) (results : list item) : Prop :=
  ∃ status error paragraphs,
    net w url = Answer status error (Document paragraphs results)
    ∧ is_error status = false.

(** The URLs of [count] pages from page [first] on. *)
Definition page_urls (speaker_name : string) (first count : nat) : list string :=
  (λ page, search_url page speaker_name) <$> seq first count.

(** ** Writing the result *)

(** The calls of a run that writes [pieces] to the result file in
    [output]: the directory is made if it is not there, the file opened
    for writing, which empties it, the pieces are written and the file is
    closed. *)
Definition write_calls (output : string) (pieces : list string)
    : list os_call :=
  let path := Os.path_join output "speaker_scores.json" in
  Makedirs output :: Open path :: (Write path <$> pieces) ++ [Close path].

(** The system refuses none of the calls [cs], made one after the other
    after the calls [done]. *)
Fixpoint accepts (refused : list os_call → os_call → bool)
    (done cs : list os_call) : bool :=
  match cs with
  | [] => true
  | c :: cs' => negb (refused done c) && accepts refused (done ++ [c]) cs'
  end.

(** In the world [w] the system lets the calls [cs] be made. *)
Definition writable (w : world) (cs : list os_call) : bool :=
  accepts (refused w) (calls w) cs.

(** A call for the directory [output] to be made, or one that opens,
    writes or closes the result file in it. *)
Definition of_result (output : string) (c : os_call) : Prop :=
  let path := Os.path_join output "speaker_scores.json" in
  c = Makedirs output ∨ c = Open path
  ∨ (∃ text, c = Write path text) ∨ c = Close path.


Section WriterVocabulary.

Variable float_repr : Q → string.



(** What [main] does once the scores are there. *)
Definition write_result (speaker_scores : dict number) (output : string)
    : M unit :=
  let file_path := Os.path_join output "speaker_scores.json" in
  Os.makedirs output;;
  with_open file_path (Json.dump float_repr speaker_scores file_path);;
  print ("Speaker scores saved to " +:+ file_path).

End WriterVocabulary.

(** ** A small world to run the script in *)

Module Demo.

Definition article_url : string := "https://news.example/today".

(** Two statements: John Smith said this, and one with the letters USA. *)
Definition article : document :=
  Document ["Then " +:+ in_quotes "John Smith said this" +:+ " was heard.";
            "The paper wrote " +:+ in_quotes "So the USA agreed" +:+ "."] [].

(** The fact checks filed under [U S]: one page, the second is empty. *)
Definition us_pages : list (list entry) :=
  [[("Exports rose", "True"); ("Imports fell", "False")]].

(** The fact checks of John Smith: two pages, the third is empty. *)
Definition smith_pages : list (list entry) :=
  [[("  Taxes went down ", "True"); ("Crime doubled", "False ")];
   [("The moon is cheese", "Pants on Fire!")]].

(** The fact checks of Mary Jones: one page, then the site breaks. *)
Definition jones_pages : list (list entry) :=
  [[("Schools are closing", "Half True")]].

Definition page (pages : list (list entry)) (n : nat) : response :=
  Answer 200 "OK" (Document [] (result_items (default [] (pages !! n)))).

Definition site (url : string) : response :=
  if String.eqb url article_url then Answer 200 "OK" article
  else if String.eqb url (search_url 1 "U S") then page us_pages 0
  else if String.eqb url (search_url 2 "U S") then page us_pages 1
  else if String.eqb url (search_url 1 "John Smith") then page smith_pages 0
  else if String.eqb url (search_url 2 "John Smith") then page smith_pages 1
  else if String.eqb url (search_url 3 "John Smith") then page smith_pages 2
  else if String.eqb url (search_url 1 "Mary Jones") then page jones_pages 0
  else if String.eqb url (search_url 2 "Mary Jones") then
    Answer 503 "503 Server Error" (Document [] [])
  else Unreachable "no route to host".

(** Nothing requested, printed or asked of the system yet; the system
    refuses to make a directory without a name. *)
Definition start : world :=
  World site
        (λ _ c, match c with
                | Makedirs name => String.eqb name EmptyString
                | _ => false
                end)
        [] [] [].

Definition float_repr (q : Q) : string :=
  pretty (Qnum q) +:+ "/" +:+ pretty (Zpos (Qden q)).

End Demo.

(** * More vocabulary: what else the code shows *)

(** ** Quoting *)

(** A text written around statements: before each statement the text that
    leads up to it, the statement between double quotes, and [rest] after
    the last one. *)
Fixpoint quoting (parts : list (string * string)) (rest : string) : string :=
  match parts with
  | [] => rest
  | (before, stmt) :: parts' =>
      before +:+ in_quotes stmt +:+ quoting parts' rest
  end.

Definition quote_free (s : string) : Prop := every Text.not_quote s.

(** ** Lookups *)

(** A result the script cannot read: the quote link is missing, or the
    rating image or its [alt]. *)
Definition unreadable (it : item) : Prop :=
  statement_quote it = None ∨ meter_alt it = None.

(** ** What a run leaves alone *)

(** From [w] to [w'] nothing happened but requests and printing: the site
    and the system are the same, and no call was made of the file system. *)
Definition grows (w w' : world) : Prop :=
  net w' = net w ∧ refused w' = refused w
  ∧ calls w' = calls w
  ∧ requests w `prefix_of` requests w'
  ∧ stdout w `prefix_of` stdout w'.

(** ** White space around a text *)

Definition blank (s : string) : Prop := every Text.is_space s.

Fixpoint last_char (s : string) : option ascii :=
  match s with
  | EmptyString => None
  | String c EmptyString => Some c
  | String _ s' => last_char s'
  end.

(** A text that neither starts nor ends with white space. *)
Definition trimmed (s : string) : Prop :=
  match s with
  | String c _ => Text.is_space c = false
  | EmptyString => True
  end
  ∧ match last_char s with
    | Some c => Text.is_space c = false
    | None => True
    end.

(** ** Names in the result file *)

Definition printable (c : ascii) : bool := Text.between 32 126 c.

Definition hex_value (c : ascii) : option nat :=
  if Text.is_digit c then Some (Text.code c - 48)
  else if Text.between 97 102 c then Some (Text.code c - 87)
  else None.

(** Reads one escaped character back off the front of a text. *)
Definition unescape (s : string) : option (ascii * string) :=
  match s with
  | EmptyString => None
  | String c r =>
      if Ascii.eqb c Json.backslash then
        match r with
        | String x r' =>
            if Ascii.eqb x "u" then
              match r' with
              | String _ (String _ (String h (String l r''))) =>
                  hi ← hex_value h; lo ← hex_value l;
                  Some (ascii_of_nat (16 * hi + lo), r'')
              | _ => None
              end
            else if Ascii.eqb x "b" then Some (ascii_of_nat 8, r')
            else if Ascii.eqb x "f" then Some (ascii_of_nat 12, r')
            else if Ascii.eqb x "n" then Some (ascii_of_nat 10, r')
            else if Ascii.eqb x "r" then Some (ascii_of_nat 13, r')
            else if Ascii.eqb x "t" then Some (ascii_of_nat 9, r')
            else Some (x, r')
        | EmptyString => None
        end
      else Some (c, r)
  end.

(** ** Worlds that go wrong *)

Module Trial.

(** A site that has another page of results for every page number. *)
Definition endless (url : string) : response :=
  Answer 200 "OK" (Document [] (result_items [("Again", "True")])).

Definition endless_world : world :=
  World endless (λ _ _, false) [] [] [].

Definition broken_url : string := "https://news.example/al".

(** An article that names the AL, and a site whose second page of results
    for [A L] has an entry without rating image. *)
Definition broken (url : string) : response :=
  if String.eqb url broken_url then
    Answer 200 "OK" (Document [in_quotes "Then the AL spoke"] [])
  else if String.eqb url (search_url 1 "A L") then
    Answer 200 "OK" (Document [] (result_items [("First", "True")]))
  else if String.eqb url (search_url 2 "A L") then
    Answer 200 "OK"
      (Document [] [Item (Some "Second") (Some "False");
                    Item (Some "Third") None])
  else Unreachable "no route to host".

Definition broken_world : world :=
  World broken (λ _ _, false) [] [] [].

Definition moved_url : string := "https://news.example/moved".

(** A site that answers the article with status 300, which
    [raise_for_status] lets pass, and has no fact check of anybody. *)
Definition moved (url : string) : response :=
  if String.eqb url moved_url then
    Answer 300 "300 Multiple Choices"
      (Document [in_quotes "Then the EU spoke"] [])
  else Answer 200 "OK" (Document [] []).

Definition moved_world : world :=
  World moved (λ _ _, false) [] [] [].

Definition summit_url : string := "https://news.example/summit".

(** An article that names the EU and the UN, and a site with one fact
    check of each of the two. *)
Definition summit (url : string) : response :=
  if String.eqb url summit_url then
    Answer 200 "OK" (Document [in_quotes "The EU met the UN"] [])
  else if String.eqb url (search_url 1 "E U") then
    Answer 200 "OK" (Document [] (result_items [("Fish", "True")]))
  else if String.eqb url (search_url 1 "U N") then
    Answer 200 "OK" (Document [] (result_items [("Peace", "Half True")]))
  else Answer 200 "OK" (Document [] []).

Definition summit_world : world :=
  World summit (λ _ _, false) [] [] [].

End Trial.

(** * Properties *)

(** ** The matcher on small texts *)

(** The closing word boundary fails after SmithX however few letters the
    repetition keeps, so there is no match. *)
Example speaker_backtracks :
  Re.findall speaker_pattern "John SmithX went home" = [].
Proof. vm_compute. reflexivity. Qed.

(** Matches do not overlap: Ann is used up by the first one. *)
Example speaker_no_overlap :
  Re.findall speaker_pattern "Mary Ann Smith" = ["Mary Ann"].
Proof. vm_compute. reflexivity. Qed.

(** A single capital letter is a capitalized word for the pattern, and a
    line break separates as a space does. *)
Example speaker_single_letters :
  Re.findall speaker_pattern ("I" +:+ Json.newline +:+ "Am here") = ["I" +:+ Json.newline +:+ "Am"].
Proof. vm_compute. reflexivity. Qed.

(** A quote that is never closed encloses nothing; an empty pair encloses
    the empty string. *)
Example quote_unclosed :
  Re.findall quote_pattern
    (in_quotes EmptyString +:+ " then " +:+ in_quotes "a b" +:+ " and "
       +:+ String Text.quote "the rest")
  = [EmptyString; "a b"].
Proof. vm_compute. reflexivity. Qed.

Example strip_both_ends :
  Text.strip ("  Half True " +:+ Json.newline) = "Half True".
Proof. vm_compute. reflexivity. Qed.

(** ** Rounding to binary64 *)

Section Rounding.

Local Open Scope Q_scope.

Lemma pow2_pos (e : Z) : 0 < pow2 e.
Proof. apply Qpower_0_lt. reflexivity. Qed.

Lemma pow2_add (a b : Z) : pow2 (a + b) == pow2 a * pow2 b.
Proof. apply Qpower_plus. discriminate. Qed.

Lemma pow2_succ (e : Z) : pow2 (e + 1) == 2 * pow2 e.
Proof. rewrite pow2_add. change (pow2 1) with 2. ring. Qed.

Lemma pow2_le (a b : Z) : (a ≤ b)%Z → pow2 a <= pow2 b.
Proof. intros H. apply Qpower_le_compat_l; [exact H|discriminate]. Qed.

Lemma pow2_lt (a b : Z) : (a < b)%Z → pow2 a < pow2 b.
Proof. intros H. apply Qpower_lt_compat_l; [exact H|reflexivity]. Qed.

Lemma pow2_lt_inv (a b : Z) : pow2 a < pow2 b → (a < b)%Z.
Proof. intros H. apply (Qpower_lt_compat_l_inv 2); [exact H|reflexivity]. Qed.

Lemma pow2_Z (e : Z) : (0 ≤ e)%Z → pow2 e == inject_Z (2 ^ e).
Proof. intros H. unfold pow2. by rewrite Zpower_Qpower. Qed.

Lemma exponent_spec (q : Q) :
  0 < q → pow2 (exponent q) <= q < pow2 (exponent q + 1).
Proof.
  intros Hq. unfold exponent.
  destruct q as [a b]. cbn [Qnum Qden].
  assert (Ha : (0 < a)%Z) by (unfold Qlt in Hq; cbn in Hq; lia).
  set (la := Z.log2 a). set (lb := Z.log2 (Z.pos b)).
  destruct (Z.log2_spec a Ha) as [Ha1 Ha2].
  destruct (Z.log2_spec (Z.pos b) eq_refl) as [Hb1 Hb2].
  fold la in Ha1, Ha2. fold lb in Hb1, Hb2.
  assert (Hla : (0 ≤ la)%Z) by apply Z.log2_nonneg.
  assert (Hlb : (0 ≤ lb)%Z) by apply Z.log2_nonneg.
  assert (Qa1 : pow2 la <= inject_Z a)
    by (rewrite pow2_Z by done; by rewrite <- Zle_Qle).
  assert (Qa2 : inject_Z a < pow2 (la + 1)).
  { rewrite pow2_Z by lia. rewrite <- Zlt_Qlt.
    by replace (la + 1)%Z with (Z.succ la) by lia. }
  assert (Qb1 : pow2 lb <= inject_Z (Z.pos b))
    by (rewrite pow2_Z by done; by rewrite <- Zle_Qle).
  assert (Qb2 : inject_Z (Z.pos b) < pow2 (lb + 1)).
  { rewrite pow2_Z by lia. rewrite <- Zlt_Qlt.
    by replace (lb + 1)%Z with (Z.succ lb) by lia. }
  assert (Hb : 0 < inject_Z (Z.pos b)) by reflexivity.
  assert (Hq' : a # b == inject_Z a / inject_Z (Z.pos b))
    by apply Qmake_Qdiv.
  pose proof (pow2_pos lb) as Plb. pose proof (pow2_pos (lb + 1)) as Plb1.
  destruct (Qle_bool (pow2 (la - lb)) (a # b)) eqn:E.
  - apply Qle_bool_iff in E. split; [exact E|].
    rewrite Hq'. apply Qlt_shift_div_r; [exact Hb|].
    replace (la - lb + 1)%Z with ((la + 1) + - lb)%Z by lia.
    rewrite pow2_add. unfold pow2 at 2. rewrite Qpower_opp. fold (pow2 lb).
    assert (H : pow2 (la + 1) * / pow2 lb * pow2 lb == pow2 (la + 1))
      by (field; lra).
    assert (0 < pow2 (la + 1) * / pow2 lb).
    { apply Qmult_lt_0_compat; [apply pow2_pos|].
      apply Qinv_lt_0_compat, pow2_pos. }
    nra.
  - assert (E' : a # b < pow2 (la - lb)).
    { apply Qnot_le_lt. intros Hle. apply Qle_bool_iff in Hle. congruence. }
    replace (la - lb - 1 + 1)%Z with (la - lb)%Z by lia.
    split; [|exact E'].
    rewrite Hq'. apply Qle_shift_div_l; [exact Hb|].
    replace (la - lb - 1)%Z with (la + - (lb + 1))%Z by lia.
    rewrite pow2_add. unfold pow2 at 2. rewrite Qpower_opp.
    fold (pow2 (lb + 1)).
    assert (H : pow2 la * / pow2 (lb + 1) * pow2 (lb + 1) == pow2 la)
      by (field; lra).
    assert (0 < pow2 la * / pow2 (lb + 1)).
    { apply Qmult_lt_0_compat; [apply pow2_pos|].
      apply Qinv_lt_0_compat, pow2_pos. }
    nra.
Qed.

Lemma exponent_unique (q : Q) (e : Z) :
  pow2 e <= q < pow2 (e + 1) → exponent q = e.
Proof.
  intros [H1 H2].
  assert (Hq : 0 < q) by (pose proof (pow2_pos e); lra).
  destruct (exponent_spec q Hq) as [H3 H4].
  assert ((e < exponent q + 1)%Z) by (apply pow2_lt_inv; lra).
  assert ((exponent q < e + 1)%Z) by (apply pow2_lt_inv; lra).
  lia.
Qed.

Ltac split_abs x :=
  let H := fresh "Hs" in
  destruct (Qlt_le_dec x 0) as [H|H];
  [ rewrite (Qabs_neg x) in * by lra | rewrite (Qabs_pos x) in * by exact H ].

Lemma nearest_even_half (x : Q) :
  - (1 # 2) <= x - inject_Z (nearest_even x) <= 1 # 2.
Proof.
  unfold nearest_even.
  pose proof (Qfloor_le x) as H1. pose proof (Qlt_floor x) as H2.
  rewrite inject_Z_plus in H2. change (inject_Z 1) with 1 in H2.
  destruct (Qcompare_spec (x - inject_Z (Qfloor x)) (1 # 2)) as [E|E|E].
  - destruct (Z.even (Qfloor x)).
    + lra.
    + rewrite inject_Z_plus. change (inject_Z 1) with 1. lra.
  - lra.
  - rewrite inject_Z_plus. change (inject_Z 1) with 1. lra.
Qed.

Lemma Z_between (a b : Z) :
  inject_Z a - 1 < inject_Z b → inject_Z b < inject_Z a + 1 → a = b.
Proof.
  intros H1 H2.
  assert (inject_Z (a - 1) < inject_Z b)
    by (unfold Zminus; rewrite inject_Z_plus; exact H1).
  assert (inject_Z b < inject_Z (a + 1))
    by (rewrite inject_Z_plus; exact H2).
  rewrite <- Zlt_Qlt in *. lia.
Qed.

(** No integer is nearer to [x]. *)
Lemma nearest_even_nearest (x : Q) (z : Z) :
  Qabs (x - inject_Z (nearest_even x)) <= Qabs (x - inject_Z z).
Proof.
  destruct (nearest_even_half x) as [H1 H2].
  destruct (Z.eq_dec z (nearest_even x)) as [->|Hne]; [lra|].
  assert (Hz : inject_Z z <= inject_Z (nearest_even x) - 1
               ∨ inject_Z (nearest_even x) + 1 <= inject_Z z).
  { destruct (Z_lt_le_dec z (nearest_even x)) as [Hlt|Hge].
    - left. assert (z ≤ nearest_even x - 1)%Z by lia.
      rewrite Zle_Qle in H. unfold Zminus in H.
      by rewrite inject_Z_plus in H.
    - right. assert (nearest_even x + 1 ≤ z)%Z by lia.
      rewrite Zle_Qle in H. by rewrite inject_Z_plus in H. }
  split_abs (x - inject_Z (nearest_even x));
    split_abs (x - inject_Z z); destruct Hz; lra.
Qed.

Lemma nearest_even_unique (x : Q) (z : Z) :
  - (1 # 2) < x - inject_Z z < 1 # 2 → nearest_even x = z.
Proof.
  intros [H1 H2]. destruct (nearest_even_half x) as [H3 H4].
  symmetry. apply Z_between; lra.
Qed.

Lemma nearest_even_Z (z : Z) : nearest_even (inject_Z z) = z.
Proof. apply nearest_even_unique. split; lra. Qed.

Lemma nearest_even_comp (x y : Q) : x == y → nearest_even x = nearest_even y.
Proof.
  intros E. unfold nearest_even. rewrite (Qfloor_comp x y E).
  assert (E' : x - inject_Z (Qfloor y) == y - inject_Z (Qfloor y))
    by (rewrite E; reflexivity).
  by rewrite (Qcompare_comp _ _ E' _ _ (Qeq_refl (1 # 2))).
Qed.

Lemma nearest_even_tie (z : Z) :
  nearest_even (inject_Z z + (1 # 2))
  = if Z.even z then z else (z + 1)%Z.
Proof.
  unfold nearest_even.
  assert (Hf : Qfloor (inject_Z z + (1 # 2)) = z).
  { pose proof (Qfloor_le (inject_Z z + (1 # 2))) as H1.
    pose proof (Qlt_floor (inject_Z z + (1 # 2))) as H2.
    rewrite inject_Z_plus in H2. change (inject_Z 1) with 1 in H2.
    apply Z_between; lra. }
  rewrite Hf.
  assert (E : inject_Z z + (1 # 2) - inject_Z z == 1 # 2) by ring.
  apply Qeq_alt in E. by rewrite E.
Qed.

Lemma nearest_even_ge (x : Q) (a : Z) :
  inject_Z a <= x → (a ≤ nearest_even x)%Z.
Proof.
  intros H. destruct (nearest_even_half x) as [H1 H2].
  assert (inject_Z a < inject_Z (nearest_even x + 1)).
  { rewrite inject_Z_plus. change (inject_Z 1) with 1. lra. }
  rewrite <- Zlt_Qlt in *. lia.
Qed.

Lemma nearest_even_le (x : Q) (b : Z) :
  x <= inject_Z b → (nearest_even x ≤ b)%Z.
Proof.
  intros H. destruct (nearest_even_half x) as [H1 H2].
  assert (inject_Z (nearest_even x) < inject_Z (b + 1)).
  { rewrite inject_Z_plus. change (inject_Z 1) with 1. lra. }
  rewrite <- Zlt_Qlt in *. lia.
Qed.

Lemma nearest_even_mono (x y : Q) :
  x <= y → (nearest_even x ≤ nearest_even y)%Z.
Proof.
  intros H. destruct (Z_le_gt_dec (nearest_even x) (nearest_even y)) as [|Hgt];
    [done|exfalso].
  destruct (nearest_even_half x) as [Hx _].
  destruct (nearest_even_half y) as [_ Hy].
  assert (Hz : inject_Z (nearest_even y) + 1 <= inject_Z (nearest_even x)).
  { assert (nearest_even y + 1 ≤ nearest_even x)%Z as Hz by lia.
    rewrite Zle_Qle in Hz. by rewrite inject_Z_plus in Hz. }
  assert (E : x == y) by lra.
  apply nearest_even_comp in E. lia.
Qed.

Lemma ulp_pos (q : Q) : 0 < ulp q.
Proof. apply pow2_pos. Qed.

Lemma ulp_binade (q : Q) :
  pow2 (exponent q) == inject_Z (2 ^ 52) * ulp q
  ∧ pow2 (exponent q + 1) == inject_Z (2 ^ 53) * ulp q.
Proof.
  unfold ulp. rewrite <- (pow2_Z 52), <- (pow2_Z 53) by done.
  rewrite <- !pow2_add. split.
  - by replace (52 + (exponent q - 52))%Z with (exponent q) by lia.
  - by replace (53 + (exponent q - 52))%Z with (exponent q + 1)%Z by lia.
Qed.

Lemma scaled_bounds (q : Q) :
  0 < q → inject_Z (2 ^ 52) <= q / ulp q < inject_Z (2 ^ 53).
Proof.
  intros Hq. destruct (exponent_spec q Hq) as [Hlo Hhi].
  destruct (ulp_binade q) as [E1 E2]. rewrite E1 in Hlo. rewrite E2 in Hhi.
  split.
  - by apply Qle_shift_div_l; [apply ulp_pos|].
  - by apply Qlt_shift_div_r; [apply ulp_pos|].
Qed.

Lemma round_pos_eq (q : Q) :
  round_pos q == inject_Z (nearest_even (q / ulp q)) * ulp q.
Proof. unfold round_pos. apply Qred_correct. Qed.

Lemma significand_bounds (q : Q) :
  0 < q → (2 ^ 52 ≤ nearest_even (q / ulp q) ≤ 2 ^ 53)%Z.
Proof.
  intros Hq. destruct (scaled_bounds q Hq) as [Hlo Hhi]. split.
  - by apply nearest_even_ge.
  - apply nearest_even_le. lra.
Qed.

Lemma Qmult_le_r' (a b c : Q) : 0 < c → a <= b → a * c <= b * c.
Proof. intros Hc H. apply Qmult_le_compat_r; lra. Qed.

Lemma round_pos_binade (q : Q) :
  0 < q → pow2 (exponent q) <= round_pos q <= pow2 (exponent q + 1).
Proof.
  intros Hq. destruct (significand_bounds q Hq) as [Hlo Hhi].
  destruct (ulp_binade q) as [-> ->]. rewrite round_pos_eq.
  rewrite Zle_Qle in Hlo, Hhi. pose proof (ulp_pos q).
  split; by apply Qmult_le_r'.
Qed.

Lemma round_pos_pos (q : Q) : 0 < q → 0 < round_pos q.
Proof.
  intros Hq. destruct (round_pos_binade q Hq) as [H _].
  pose proof (pow2_pos (exponent q)). lra.
Qed.

Lemma exponent_comp (x y : Q) : x == y → 0 < x → exponent x = exponent y.
Proof.
  intros E Hx. symmetry. apply exponent_unique.
  destruct (exponent_spec x Hx). lra.
Qed.

Lemma round_pos_comp (x y : Q) : x == y → 0 < x → round_pos x = round_pos y.
Proof.
  intros E Hx. unfold round_pos, ulp.
  rewrite <- (exponent_comp x y E Hx).
  apply Qred_complete.
  rewrite (nearest_even_comp (x / pow2 (exponent x - 52))
             (y / pow2 (exponent x - 52))); [reflexivity|].
  apply Qdiv_comp; [exact E|reflexivity].
Qed.

Lemma round_gt (x : Q) : 0 < x → round x = round_pos x.
Proof.
  intros H. unfold round. destruct (Qcompare_spec x 0); [lra..|done].
Qed.

Lemma round_lt (x : Q) : x < 0 → round x = - round_pos (- x).
Proof.
  intros H. unfold round. destruct (Qcompare_spec x 0); [lra|done|lra].
Qed.

Lemma round_0 (x : Q) : x == 0 → round x = 0.
Proof.
  intros H. unfold round. destruct (Qcompare_spec x 0); [done|lra..].
Qed.

Lemma round_comp (x y : Q) : x == y → round x = round y.
Proof.
  intros E. destruct (Q_dec x 0) as [[H|H]|H].
  - rewrite !round_lt by lra. f_equal. apply round_pos_comp; lra.
  - rewrite !round_gt by lra. apply round_pos_comp; lra.
  - rewrite !round_0; [done|lra..].
Qed.

#[global] Instance round_proper : Proper (Qeq ==> Qeq) round.
Proof. intros x y E. by rewrite (round_comp x y E). Qed.

Lemma round_opp (x : Q) : round (- x) == - round x.
Proof.
  destruct (Q_dec x 0) as [[H|H]|H].
  - rewrite (round_lt x), (round_gt (- x)) by lra. ring.
  - rewrite (round_gt x), (round_lt (- x)) by lra.
    rewrite (round_pos_comp (- - x) x); [reflexivity| ring | lra].
  - rewrite !round_0; [reflexivity|lra..].
Qed.

Lemma round_pos_mono (x y : Q) :
  0 < x → x <= y → round_pos x <= round_pos y.
Proof.
  intros Hx Hxy. assert (Hy : 0 < y) by lra.
  destruct (exponent_spec x Hx) as [Hxl Hxh].
  destruct (exponent_spec y Hy) as [Hyl Hyh].
  assert (Hlt : (exponent x < exponent y + 1)%Z) by (apply pow2_lt_inv; lra).
  destruct (Z.eq_dec (exponent x) (exponent y)) as [Heq|Hne].
  - rewrite !round_pos_eq. unfold ulp. rewrite <- Heq.
    apply Qmult_le_r'; [apply pow2_pos|].
    rewrite <- Zle_Qle. apply nearest_even_mono.
    unfold Qdiv. apply Qmult_le_r'; [|done].
    apply Qinv_lt_0_compat, pow2_pos.
  - destruct (round_pos_binade x Hx) as [_ H1].
    destruct (round_pos_binade y Hy) as [H2 _].
    assert (pow2 (exponent x + 1) <= pow2 (exponent y)) by (apply pow2_le; lia).
    lra.
Qed.

Lemma round_mono (x y : Q) : x <= y → round x <= round y.
Proof.
  intros Hxy.
  destruct (Q_dec x 0) as [[Hx|Hx]|Hx], (Q_dec y 0) as [[Hy|Hy]|Hy];
    try lra;
    rewrite ?(round_lt x), ?(round_gt x), ?(round_0 x),
            ?(round_lt y), ?(round_gt y), ?(round_0 y) by done.
  - apply Qopp_le_compat. apply round_pos_mono; lra.
  - pose proof (round_pos_pos (- x)). pose proof (round_pos_pos y). lra.
  - pose proof (round_pos_pos (- x)). lra.
  - by apply round_pos_mono.
  - pose proof (round_pos_pos y). lra.
  - lra.
Qed.


Lemma round_pos_scaled (q : Q) (n : Z) :
  0 < q → q == inject_Z n * ulp q → round_pos q == q.
Proof.
  intros Hq E. rewrite round_pos_eq.
  rewrite (nearest_even_comp (q / ulp q) (inject_Z n)).
  - rewrite nearest_even_Z. by rewrite <- E.
  - rewrite E at 1. field. pose proof (ulp_pos q). lra.
Qed.

(** A number with a significand below [2 ^ 53] is left as it is. *)
Lemma round_pos_fixed (q : Q) (m e : Z) :
  0 < q → q == inject_Z m * pow2 e → (m < 2 ^ 53)%Z → round_pos q == q.
Proof.
  intros Hq E Hm. destruct (exponent_spec q Hq) as [Hlo _].
  assert (Hlt : pow2 (exponent q) < pow2 (53 + e)).
  { rewrite pow2_add, (pow2_Z 53) by done.
    rewrite Zlt_Qlt in Hm. pose proof (pow2_pos e).
    assert (inject_Z m * pow2 e < inject_Z (2 ^ 53) * pow2 e)
      by (apply Qmult_lt_compat_r; done).
    lra. }
  apply pow2_lt_inv in Hlt.
  apply (round_pos_scaled q (m * 2 ^ (e - (exponent q - 52))) Hq).
  unfold ulp. rewrite inject_Z_mult, <- pow2_Z by lia.
  rewrite <- Qmult_assoc, <- pow2_add.
  by replace (e - (exponent q - 52) + (exponent q - 52))%Z with e by lia.
Qed.

Lemma round_fixed (q : Q) (m e : Z) :
  q == inject_Z m * pow2 e → (- 2 ^ 53 < m < 2 ^ 53)%Z → round q == q.
Proof.
  intros E Hm. destruct (Q_dec q 0) as [[H|H]|H].
  - rewrite round_lt by done.
    rewrite (round_pos_fixed (- q) (- m) e); [ring|lra| |lia].
    rewrite inject_Z_opp, E. ring.
  - rewrite round_gt by done. apply (round_pos_fixed q m e); [done..|lia].
  - rewrite round_0; [by rewrite H|done].
Qed.

Lemma round_Z (z : Z) :
  (- 2 ^ 53 ≤ z ≤ 2 ^ 53)%Z → round (inject_Z z) == inject_Z z.
Proof.
  intros Hz.
  destruct (Z.eq_dec z (2 ^ 53)%Z) as [->|]; [by vm_compute|].
  destruct (Z.eq_dec z (- 2 ^ 53)%Z) as [->|]; [by vm_compute|].
  apply (round_fixed _ z 0); [|lia]. change (pow2 0) with 1. ring.
Qed.

Lemma round_round (x : Q) : round (round x) == round x.
Proof.
  assert (Hpos : ∀ q, 0 < q → round_pos (round_pos q) == round_pos q).
  { intros q Hq. pose proof (round_pos_pos q Hq) as HR.
    destruct (significand_bounds q Hq) as [Hlo Hhi].
    pose proof (round_pos_eq q) as E.
    destruct (Z.eq_dec (nearest_even (q / ulp q)) (2 ^ 53)%Z) as [Heq|Hne].
    - apply (round_pos_fixed _ (2 ^ 52) (exponent q - 52 + 1)); [done| |done].
      rewrite E, Heq, pow2_succ. unfold ulp.
      change (inject_Z (2 ^ 53)) with (inject_Z (2 ^ 52) * 2). ring.
    - apply (round_pos_fixed _ (nearest_even (q / ulp q)) (exponent q - 52));
        [done|exact E|lia]. }
  destruct (Q_dec x 0) as [[H|H]|H].
  - rewrite (round_lt x) by done. rewrite round_opp.
    rewrite (round_gt (round_pos (- x))) by (apply round_pos_pos; lra).
    rewrite Hpos; [reflexivity|lra].
  - rewrite (round_gt x) by done.
    rewrite (round_gt (round_pos x)) by (by apply round_pos_pos).
    by apply Hpos.
  - rewrite (round_0 x) by done. by rewrite round_0.
Qed.

(** The rounding error is at most half a unit in the last place. *)
Lemma round_pos_error (q : Q) :
  0 < q → Qabs (round_pos q - q) <= q * pow2 (- 53).
Proof.
  intros Hq. rewrite round_pos_eq.
  destruct (nearest_even_half (q / ulp q)) as [H1 H2].
  destruct (exponent_spec q Hq) as [Hlo _].
  destruct (ulp_binade q) as [Eb _]. rewrite Eb in Hlo.
  pose proof (ulp_pos q) as Hu.
  set (n := inject_Z (nearest_even (q / ulp q))) in *.
  assert (Eq : q == q / ulp q * ulp q) by (field; lra).
  set (t := q / ulp q) in *.
  assert (Hhalf : ulp q * (1 # 2) <= q * pow2 (- 53)).
  { change (pow2 (- 53)) with (1 # 9007199254740992).
    change (inject_Z (2 ^ 52)) with (4503599627370496 # 1) in Hlo. lra. }
  assert (Ha : (t - n) * ulp q <= (1 # 2) * ulp q)
    by (apply Qmult_le_r'; lra).
  assert (Hb : - (1 # 2) * ulp q <= (t - n) * ulp q)
    by (apply Qmult_le_r'; lra).
  apply Qabs_Qle_condition. split; lra.
Qed.

Lemma round_error (x : Q) : Qabs (round x - x) <= Qabs x * pow2 (- 53).
Proof.
  destruct (Q_dec x 0) as [[H|H]|H].
  - rewrite round_lt by done. rewrite (Qabs_neg x) by lra.
    pose proof (round_pos_error (- x)) as He.
    assert (E : - round_pos (- x) - x == - (round_pos (- x) - - x)) by ring.
    rewrite E, Qabs_opp. apply He. lra.
  - rewrite round_gt by done. rewrite (Qabs_pos x) by lra.
    by apply round_pos_error.
  - rewrite round_0 by done. rewrite H. by vm_compute.
Qed.

Lemma nearest_even_near (x c : Q) (z : Z) :
  0 < c → (inject_Z z - (1 # 2)) * c < x → x < (inject_Z z + (1 # 2)) * c →
  nearest_even (x / c) = z.
Proof.
  intros Hc Hlo Hhi. apply nearest_even_unique.
  assert (inject_Z z - (1 # 2) < x / c) by (by apply Qlt_shift_div_l).
  assert (x / c < inject_Z z + (1 # 2)) by (by apply Qlt_shift_div_r).
  split; lra.
Qed.

(** Counting on in binary64 never passes the count itself: one more than
    the float of [k] rounds to at most the float of [k + 1]. *)
Lemma round_step (k : Z) :
  (0 ≤ k)%Z → round (round (inject_Z k) + 1) <= round (inject_Z k + 1).
Proof.
  intros Hk. destruct (Z_lt_le_dec k (2 ^ 53)) as [Hsmall|Hbig].
  { apply round_mono. rewrite round_Z by lia. lra. }
  destruct (Qlt_le_dec (inject_Z k) (round (inject_Z k))) as [Hup|Hdown];
    [|apply round_mono; lra].
  assert (Hq : 0 < inject_Z k).
  { change 0 with (inject_Z 0). rewrite <- Zlt_Qlt. lia. }
  assert (Hq1 : 1 < inject_Z k).
  { change 1 with (inject_Z 1). rewrite <- Zlt_Qlt. lia. }
  assert (Hmono : round (inject_Z k) <= round (inject_Z k + 1))
    by (apply round_mono; lra).
  enough (round (round (inject_Z k) + 1) == round (inject_Z k)) by lra.
  rewrite (round_gt (inject_Z k)) in * by done.
  pose proof (round_pos_pos _ Hq) as HR.
  rewrite round_gt by lra.
  destruct (exponent_spec _ Hq) as [Hel Heh].
  assert (He : (53 ≤ exponent (inject_Z k))%Z).
  { assert (pow2 53 <= inject_Z k)
      by (rewrite pow2_Z by done; by rewrite <- Zle_Qle).
    assert (53 < exponent (inject_Z k) + 1)%Z by (apply pow2_lt_inv; lra).
    lia. }
  destruct (ulp_binade (inject_Z k)) as [Eb1 Eb2].
  destruct (significand_bounds _ Hq) as [Hnl Hnh].
  pose proof (round_pos_eq (inject_Z k)) as ER.
  pose proof (nearest_even_half (inject_Z k / ulp (inject_Z k))) as [Hh _].
  pose proof (eq_refl (nearest_even (inject_Z k / ulp (inject_Z k)))) as En.
  revert En. generalize (nearest_even (inject_Z k / ulp (inject_Z k))) at 1.
  intros n En. rewrite <- En in *.
  set (q := inject_Z k) in *. set (R := round_pos q) in *.
  pose proof (ulp_pos q) as Hu.
  assert (Hu2 : 2 <= ulp q).
  { unfold ulp. change 2 with (pow2 1). apply pow2_le. lia. }
  destruct (Z.eq_dec n (2 ^ 53)%Z) as [Htop|Hin].
  - (* the float of [k] is the next power of two *)
    rewrite Htop in ER. rewrite <- Eb2 in ER.
    assert (Hex : exponent (R + 1) = (exponent q + 1)%Z).
    { apply exponent_unique. rewrite (pow2_succ (exponent q + 1)). lra. }
    assert (Eu : ulp (R + 1) == 2 * ulp q).
    { unfold ulp. rewrite Hex, <- pow2_succ.
      by replace (exponent q + 1 - 52)%Z with (exponent q - 52 + 1)%Z by lia. }
    rewrite round_pos_eq.
    rewrite (nearest_even_comp _ ((R + 1) / (2 * ulp q)))
      by (by rewrite Eu).
    rewrite (nearest_even_near _ _ (2 ^ 52)); [| lra | |].
    + rewrite Eu, ER, Eb2.
      change (inject_Z (2 ^ 53)) with (inject_Z (2 ^ 52) * 2). ring.
    + rewrite ER, Eb2.
      change (inject_Z (2 ^ 53)) with (4503599627370496 * 2).
      change (inject_Z (2 ^ 52)) with 4503599627370496. lra.
    + rewrite ER, Eb2.
      change (inject_Z (2 ^ 53)) with (4503599627370496 * 2).
      change (inject_Z (2 ^ 52)) with 4503599627370496. lra.
  - assert (Hn1 : inject_Z n + 1 <= inject_Z (2 ^ 53)).
    { assert (n + 1 ≤ 2 ^ 53)%Z as H by lia.
      rewrite Zle_Qle in H. by rewrite inject_Z_plus in H. }
    assert (Hn2 : inject_Z (2 ^ 52) <= inject_Z n) by (by rewrite <- Zle_Qle).
    assert (Hm1 : (inject_Z n + 1) * ulp q <= inject_Z (2 ^ 53) * ulp q)
      by (apply Qmult_le_r'; done).
    assert (Hm2 : inject_Z (2 ^ 52) * ulp q <= inject_Z n * ulp q)
      by (apply Qmult_le_r'; done).
    assert (Hex : exponent (R + 1) = exponent q).
    { apply exponent_unique. rewrite Eb1, Eb2. lra. }
    assert (Eu : ulp (R + 1) = ulp q) by (unfold ulp; by rewrite Hex).
    rewrite round_pos_eq, Eu.
    destruct (Z.eq_dec (exponent q) 53%Z) as [H53|H54].
    + (* numbers two apart: [k] was half way, and went to the even one *)
      assert (Eu2 : ulp q == 2) by (unfold ulp; by rewrite H53).
      assert (ER2 : R == inject_Z n * 2) by (by rewrite <- Eu2).
      assert (Hh2 : - (1 # 2) <= q * (1 # 2) - inject_Z n).
      { assert (E : q * (1 # 2) == q / ulp q) by (rewrite Eu2; field).
        by rewrite E. }
      assert (Hk2 : inject_Z k == inject_Z (2 * n - 1)).
      { assert (inject_Z k < inject_Z (2 * n)) as H1.
        { rewrite inject_Z_mult. change (inject_Z 2) with 2. fold q. lra. }
        assert (inject_Z (2 * n - 2) < inject_Z k) as H2.
        { unfold Zminus. rewrite inject_Z_plus, inject_Z_mult.
          change (inject_Z 2) with 2. change (inject_Z (- (2))) with (- (2)).
          fold q. lra. }
        rewrite <- Zlt_Qlt in H1, H2.
        assert (k = 2 * n - 1)%Z as -> by lia. reflexivity. }
      assert (Hhalfway : q / ulp q == inject_Z (n - 1) + (1 # 2)).
      { fold q in Hk2. rewrite Eu2, Hk2. unfold Zminus.
        rewrite !inject_Z_plus, inject_Z_mult.
        change (inject_Z 2) with 2. change (inject_Z (- (1))) with (- (1)).
        field. }
      rewrite (nearest_even_comp _ _ Hhalfway), nearest_even_tie in En.
      assert (Heven : Z.even n = true).
      { destruct (Z.even (n - 1)) eqn:Hev; [lia|].
        replace n with (Z.succ (n - 1)) by lia.
        by rewrite Z.even_succ, <- Z.negb_even, Hev. }
      rewrite (nearest_even_comp _ (inject_Z n + (1 # 2))).
      * rewrite nearest_even_tie, Heven. by rewrite ER.
      * rewrite ER, Eu2. field.
    + assert (Hu4 : 4 <= ulp q).
      { unfold ulp. change 4 with (pow2 2). apply pow2_le. lia. }
      rewrite (nearest_even_near _ _ n); [by rewrite ER|done|lra..].
Qed.

End Rounding.

(** ** Scoring *)

Section Scoring.

Local Open Scope Q_scope.

Lemma round_between (x b : Q) : - b <= x <= b → - round b <= round x <= round b.
Proof.
  intros [H1 H2]. split.
  - rewrite <- round_opp. by apply round_mono.
  - by apply round_mono.
Qed.

Lemma round_1 : round 1 == 1.
Proof. by vm_compute. Qed.

Lemma float_of_nat_S (k : nat) :
  round (float_of_nat k + 1) <= float_of_nat (S k).
Proof.
  unfold float_of_nat.
  rewrite (round_comp (inject_Z (Z.of_nat (S k))) (inject_Z (Z.of_nat k) + 1)).
  - apply round_step. lia.
  - by rewrite Nat2Z.inj_succ, <- Z.add_1_r, inject_Z_plus.
Qed.

Lemma to_float_running (k : nat) (acc : number) :
  running k acc → - float_of_nat k <= to_float acc <= float_of_nat k.
Proof.
  destruct acc as [z|q]; cbn [running to_float]; [|done].
  intros [H1 H2]. apply round_between.
  rewrite Zle_Qle in H1, H2. rewrite inject_Z_opp in H1. by split.
Qed.

Lemma to_float_unit (v : number) : unit_range v → -1 <= to_float v <= 1.
Proof.
  destruct v as [z|q]; cbn [unit_range to_float]; [|done].
  intros H. rewrite round_Z by lia.
  destruct H as [H1 H2]. rewrite Zle_Qle in H1, H2. by split.
Qed.

Lemma add_running (k : nat) (acc v : number) :
  running k acc → unit_range v → running (S k) (add acc v).
Proof.
  intros Hacc Hv.
  pose proof (to_float_running k acc Hacc) as Ha.
  pose proof (to_float_unit v Hv) as Hb.
  assert (Hf : running (S k) (Float (to_float acc + to_float v))).
  { cbn [running]. pose proof (float_of_nat_S k) as Hs.
    destruct (round_between (to_float acc + to_float v)
                (float_of_nat k + 1)) as [H1 H2]; [lra|].
    split; lra. }
  destruct acc as [z|p], v as [y|q]; try exact Hf.
  cbn [running add unit_range] in *. lia.
Qed.

Lemma fold_running (l : list number) :
  ∀ (k : nat) (acc : number),
    Forall unit_range l → running k acc →
    running (k + length l) (fold_left add l acc).
Proof.
  induction l as [|v l IH]; intros k acc Hl Hacc.
  - cbn [fold_left length]. by rewrite Nat.add_0_r.
  - apply Forall_cons in Hl as [Hv Hl]. cbn [fold_left length].
    rewrite Nat.add_succ_r, <- Nat.add_succ_l.
    apply IH; [done|]. by apply add_running.
Qed.

Lemma sum_running (l : list number) :
  Forall unit_range l → running (length l) (sum l).
Proof.
  intros Hl. apply (fold_running l 0%nat (Int 0) Hl). cbn. lia.
Qed.

Lemma float_of_nat_ge_1 (n : nat) : (0 < n)%nat → 1 <= float_of_nat n.
Proof.
  intros Hn. rewrite <- round_1. apply round_mono.
  change 1 with (inject_Z 1). rewrite <- Zle_Qle. lia.
Qed.

Lemma quotient_unit (a b : Q) : 0 < b → - b <= a <= b → -1 <= a / b <= 1.
Proof.
  intros Hb [H1 H2]. split.
  - apply Qle_shift_div_l; [done|lra].
  - apply Qle_shift_div_r; [done|lra].
Qed.

Lemma round_unit (x : Q) : -1 <= x <= 1 → -1 <= round x <= 1.
Proof.
  intros H. destruct (round_between x 1) as [H1 H2]; [done|].
  rewrite round_1 in *. by split.
Qed.

Lemma truediv_unit (acc : number) (n : nat) :
  (0 < n)%nat → running n acc → -1 <= value (truediv acc n) <= 1.
Proof.
  intros Hn Hacc. destruct acc as [z|q]; cbn [truediv value running] in *.
  - apply round_unit, quotient_unit.
    + change 0 with (inject_Z 0). rewrite <- Zlt_Qlt. lia.
    + destruct Hacc as [H1 H2]. rewrite Zle_Qle in H1, H2.
      rewrite inject_Z_opp in H1. by split.
  - apply round_unit, quotient_unit; [|done].
    pose proof (float_of_nat_ge_1 n Hn). unfold float_of_nat in *. lra.
Qed.

Lemma rating_value_unit (label : string) : unit_range (rating_value label).
Proof.
  unfold rating_value. destruct (rating_values !! label) as [n|] eqn:E.
  - apply elem_of_list_to_map_2 in E.
    repeat (apply elem_of_cons in E as [E|E];
            [injection E as _ ->; vm_compute; split; discriminate|]).
    by apply elem_of_nil in E.
  - vm_compute. split; discriminate.
Qed.

Lemma score_nonempty (st : statement) (sts : list statement) :
  calculate_speaker_score (st :: sts)
  = truediv (sum ((λ s, rating_value (rating s)) <$> st :: sts))
            (length (st :: sts)).
Proof. unfold calculate_speaker_score. simpl. by rewrite length_fmap. Qed.

Lemma scores_unit (sts : list statement) :
  Forall unit_range ((λ s, rating_value (rating s)) <$> sts).
Proof. apply Forall_fmap, Forall_forall. intros s _. apply rating_value_unit. Qed.

Lemma score_in_range (statements : list statement) :
  -1 <= value (calculate_speaker_score statements) <= 1.
Proof.
  destruct statements as [|st sts]; [vm_compute; split; discriminate|].
  rewrite score_nonempty. apply truediv_unit; [cbn; lia|].
  rewrite <- (length_fmap (λ s, rating_value (rating s))).
  apply sum_running, scores_unit.
Qed.

Lemma round_near (x c : Q) :
  - c <= x <= c →
  - (c * (1 # 9007199254740992)) <= round x - x <= c * (1 # 9007199254740992).
Proof.
  intros [H1 H2]. pose proof (round_error x) as He.
  change (pow2 (- 53)) with (1 # 9007199254740992) in He.
  apply Qabs_Qle_condition in He.
  assert (Qabs x <= c) by (apply Qabs_Qle_condition; by split).
  lra.
Qed.

Lemma inject_nat_nonneg (k : nat) : 0 <= inject_Z (Z.of_nat k).
Proof. change 0 with (inject_Z 0). rewrite <- Zle_Qle. lia. Qed.

Lemma float_of_nat_near (k : nat) :
  - (inject_Z (Z.of_nat k) * (1 # 9007199254740992))
  <= float_of_nat k - inject_Z (Z.of_nat k)
  <= inject_Z (Z.of_nat k) * (1 # 9007199254740992).
Proof.
  apply round_near. pose proof (inject_nat_nonneg k). split; lra.
Qed.

Lemma to_float_near (k : nat) (acc : number) :
  running k acc →
  - (inject_Z (Z.of_nat k) * (1 # 9007199254740992))
  <= to_float acc - value acc
  <= inject_Z (Z.of_nat k) * (1 # 9007199254740992).
Proof.
  pose proof (inject_nat_nonneg k).
  destruct acc as [z|q]; cbn [running value to_float]; [|lra].
  intros [H1 H2]. rewrite Zle_Qle in H1, H2. rewrite inject_Z_opp in H1.
  by apply round_near.
Qed.

Lemma to_float_unit_value (v : number) :
  unit_range v → to_float v == value v.
Proof.
  destruct v as [z|q]; cbn [unit_range to_float value]; [|done].
  intros H. apply round_Z. lia.
Qed.

(** What one addition of the running sum is off by. *)
Lemma add_near (k : nat) (acc v : number) :
  running k acc → unit_range v →
  - ((4 * inject_Z (Z.of_nat k) + 2) * (1 # 9007199254740992))
  <= value (add acc v) - (value acc + value v)
  <= (4 * inject_Z (Z.of_nat k) + 2) * (1 # 9007199254740992).
Proof.
  intros Hacc Hv. pose proof (inject_nat_nonneg k) as Hk.
  assert (Hf : - ((4 * inject_Z (Z.of_nat k) + 2) * (1 # 9007199254740992))
               <= round (to_float acc + to_float v) - (value acc + value v)
               <= (4 * inject_Z (Z.of_nat k) + 2) * (1 # 9007199254740992)).
  { pose proof (to_float_running k acc Hacc) as Ha.
    pose proof (to_float_unit v Hv) as Hb.
    pose proof (to_float_near k acc Hacc) as Hna.
    pose proof (to_float_unit_value v Hv) as Hnb.
    pose proof (float_of_nat_near k) as Hnk.
    pose proof (round_near (to_float acc + to_float v)
                  (2 * inject_Z (Z.of_nat k) + 1)) as Hr.
    lra. }
  destruct acc as [z|p], v as [y|q]; try exact Hf.
  cbn [add value]. rewrite inject_Z_plus. lra.
Qed.

Lemma fold_near (l : list number) :
  ∀ (k : nat) (acc : number),
    Forall unit_range l → running k acc →
    let K := inject_Z (Z.of_nat k) in
    let N := inject_Z (Z.of_nat (k + length l)) in
    - ((N * N - K * K) * (1 # 4503599627370496))
    <= value (fold_left add l acc)
       - (value acc + fold_right Qplus 0 (value <$> l))
    <= (N * N - K * K) * (1 # 4503599627370496).
Proof.
  induction l as [|v l IH]; intros k acc Hl Hacc;
    cbn [fold_left fold_right fmap list_fmap length].
  - rewrite Nat.add_0_r. cbn zeta. split; ring_simplify; lra.
  - apply Forall_cons in Hl as [Hv Hl].
    specialize (IH (S k) (add acc v) Hl (add_running k acc v Hacc Hv)).
    pose proof (add_near k acc v Hacc Hv) as Ha.
    rewrite Nat.add_succ_r, <- Nat.add_succ_l. cbn zeta in *.
    revert IH. generalize (inject_Z (Z.of_nat (S k + length l))). intros N.
    rewrite Nat2Z.inj_succ, <- Z.add_1_r, inject_Z_plus.
    change (inject_Z 1) with 1. revert Ha.
    generalize (inject_Z (Z.of_nat k)). intros K Ha IH.
    assert (E : (K + 1) * (K + 1) == K * K + 2 * K + 1) by ring.
    split; lra.
Qed.

Lemma quotient_near (a b n c : Q) :
  0 < n → - (c * n) <= a - b <= c * n → - c <= a / n - b / n <= c.
Proof.
  intros Hn [H1 H2].
  assert (E : a / n - b / n == (a - b) / n) by (field; lra).
  rewrite E. split.
  - apply Qle_shift_div_l; [done|lra].
  - apply Qle_shift_div_r; [done|lra].
Qed.

Lemma product_small (t d u : Q) :
  -1 <= t <= 1 → - u <= d <= u → - u <= t * d <= u.
Proof. intros [H1 H2] [H3 H4]. split; nra. Qed.

(** Dividing by the float of a count instead of the count. *)
Lemma float_quotient_near (a : Q) (n : nat) :
  (0 < n)%nat → - float_of_nat n <= a <= float_of_nat n →
  - (1 # 9007199254740992)
  <= a / float_of_nat n - a / inject_Z (Z.of_nat n)
  <= 1 # 9007199254740992.
Proof.
  intros Hn Ha. pose proof (float_of_nat_ge_1 n Hn) as HF.
  pose proof (float_of_nat_near n) as Hnear.
  assert (HN : 0 < inject_Z (Z.of_nat n)).
  { change 0 with (inject_Z 0). rewrite <- Zlt_Qlt. lia. }
  revert Ha HF Hnear HN.
  generalize (float_of_nat n) (inject_Z (Z.of_nat n)). intros F N Ha HF Hnear HN.
  assert (E : a / F - a / N == a / F * ((N - F) / N)) by (field; lra).
  rewrite E. apply product_small.
  - apply quotient_unit; [lra|done].
  - assert (E' : (N - F) / N == N / N - F / N) by (field; lra).
    rewrite E'. apply quotient_near; [done|]. lra.
Qed.

Lemma sum_near (l : list number) :
  Forall unit_range l →
  let N := inject_Z (Z.of_nat (length l)) in
  - (N * N * (1 # 4503599627370496))
  <= value (sum l) - fold_right Qplus 0 (value <$> l)
  <= N * N * (1 # 4503599627370496).
Proof.
  intros Hl. pose proof (fold_near l 0%nat (Int 0) Hl) as H.
  cbn [Nat.add value running Z.of_nat] in H.
  cbn zeta in *. change (inject_Z (Z.of_nat 0)) with 0 in H.
  change (inject_Z 0) with 0 in H.
  unfold sum. revert H. generalize (inject_Z (Z.of_nat (length l))).
  intros N H. specialize (H ltac:(lia)). split; lra.
Qed.

Lemma truediv_near (acc : number) (n : nat) (s : Q) :
  (0 < n)%nat → running n acc →
  let N := inject_Z (Z.of_nat n) in
  - (N * N * (1 # 4503599627370496)) <= value acc - s
    <= N * N * (1 # 4503599627370496) →
  - ((N + 1) * (1 # 4503599627370496))
  <= value (truediv acc n) - s / N
  <= (N + 1) * (1 # 4503599627370496).
Proof.
  intros Hn Hacc N Hs.
  assert (HN : 0 < N).
  { unfold N. change 0 with (inject_Z 0). rewrite <- Zlt_Qlt. lia. }
  assert (Hq : - (N * (1 # 4503599627370496)) <= value acc / N - s / N
               <= N * (1 # 4503599627370496)).
  { apply quotient_near; [done|]. lra. }
  destruct acc as [z|q]; cbn [truediv value running] in *.
  - fold N.
    pose proof (round_near (inject_Z z / N) 1) as Hr.
    destruct Hr as [Hr1 Hr2].
    { apply quotient_unit; [done|].
      destruct Hacc as [H1 H2]. rewrite Zle_Qle in H1, H2.
      rewrite inject_Z_opp in H1. by split. }
    split; lra.
  - fold (float_of_nat n).
    pose proof (float_of_nat_ge_1 n Hn) as HF.
    pose proof (round_near (round q / float_of_nat n) 1) as Hr.
    destruct Hr as [Hr1 Hr2]; [apply quotient_unit; [lra|done]|].
    pose proof (float_quotient_near (round q) n Hn Hacc) as Hd.
    fold N in Hd. split; lra.
Qed.

Lemma score_near_mean (st : statement) (sts : list statement) :
  let N := inject_Z (Z.of_nat (length (st :: sts))) in
  - ((N + 1) * (1 # 4503599627370496))
  <= value (calculate_speaker_score (st :: sts))
     - arithmetic_mean (mapped <$> st :: sts)
  <= (N + 1) * (1 # 4503599627370496).
Proof.
  rewrite score_nonempty. unfold arithmetic_mean.
  set (scores := (λ s, rating_value (rating s)) <$> st :: sts).
  assert (Hlen : length scores = length (st :: sts)) by apply length_fmap.
  assert (Em : mapped <$> st :: sts = value <$> scores)
    by (unfold scores; by rewrite <- list_fmap_compose).
  rewrite Em, length_fmap, Hlen. rewrite <- Hlen at 1.
  pose proof (scores_unit (st :: sts)) as Hu. fold scores in Hu.
  rewrite <- Hlen. apply truediv_near.
  - rewrite Hlen. cbn. lia.
  - by apply sum_running.
  - by apply sum_near.
Qed.

End Scoring.

(** C2: [rating_values.get(label, 0)] sends each label of the table to its
    constant (True to 1, Mostly True to 0.8, Half True to 0.5, Mostly False
    to 0.2, False to 0, Pants on Fire! to -1) and every other string to 0. *)
Theorem rating_value_table (label : string) :
  rating_value label =
    if decide (label = "True") then Int 1
    else if decide (label = "Mostly True") then Float 0.8
    else if decide (label = "Half True") then Float 0.5
    else if decide (label = "Mostly False") then Float 0.2
    else if decide (label = "False") then Int 0
    else if decide (label = "Pants on Fire!") then Int (-1)
    else Int 0.
Proof.
  unfold rating_value, rating_values.
  repeat case_decide; subst; try (vm_compute; reflexivity).
  cbn [list_to_map foldr uncurry fst snd].
  rewrite !lookup_insert_ne by done. by rewrite lookup_empty.
Qed.

(** C3, as the code has it: the score of an empty list is 0; the score of
    a non-empty list is the mean as binary64 arithmetic gives it, which is
    not always the arithmetic mean of the mapped values but within
    [(n + 1) / 2 ^ 52] of it for [n] records; for the ratings True and
    False it is 0.5. *)
Theorem calculate_speaker_score_mean :
  calculate_speaker_score [] = Int 0
  ∧ (∀ st sts,
       let n := inject_Z (Z.of_nat (length (st :: sts))) in
       (Qabs (value (calculate_speaker_score (st :: sts))
              - arithmetic_mean (mapped <$> st :: sts))
        <= (n + 1) * pow2 (- 52))%Q)
  ∧ (∀ t1 t2,
       same (calculate_speaker_score [Statement t1 "True"; Statement t2 "False"])
            (Float 0.5)).
Proof.
  split; [reflexivity|]. split.
  - intros st sts n. apply Qabs_Qle_condition.
    change (pow2 (- 52)) with (1 # 4503599627370496)%Q.
    apply score_near_mean.
  - intros t1 t2. vm_compute. reflexivity.
Qed.

(** C3, as the claim words it, fails: three records rated Mostly True
    score 0.8000000000000002, which is not the mean of their values. *)
Lemma calculate_speaker_score_not_mean :
  let statements := [Statement "a" "Mostly True"; Statement "b" "Mostly True";
                     Statement "c" "Mostly True"] in
  ¬ (value (calculate_speaker_score statements)
     == arithmetic_mean (mapped <$> statements))%Q
  ∧ (value (calculate_speaker_score statements)
     == 7205759403792795 # 9007199254740992)%Q
  ∧ (arithmetic_mean (mapped <$> statements)
     == 7205759403792794 # 9007199254740992)%Q.
Proof. vm_compute. repeat split; discriminate. Qed.

(** C10: whatever the rating strings of the records are, the score lies
    between -1 and 1. *)
Theorem calculate_speaker_score_bounds (statements : list statement) :
  (-1 <= value (calculate_speaker_score statements) <= 1)%Q.
Proof. apply score_in_range. Qed.

(** ** Speakers *)

(** C9: the speakers [identify_speakers] returns are the strings the
    pattern matched, each of them once. *)
Theorem identify_speakers_no_duplicates (article_text : iterable) :
  NoDup (identify_speakers article_text)
  ∧ ∀ name, name ∈ identify_speakers article_text
            ↔ name ∈ Re.findall speaker_pattern
                       (Text.join " " (iter article_text)).
Proof.
  unfold identify_speakers. split.
  - apply NoDup_elements.
  - intros name. rewrite elem_of_elements. apply elem_of_list_to_set.
Qed.

(** ** Quoted statements *)

Lemma is_quote_eq (c : ascii) : Text.is_quote c = true → c = Text.quote.
Proof.
  unfold Text.is_quote, Text.code, Text.quote. intros H.
  apply Nat.eqb_eq in H. by rewrite <- H, ascii_nat_embedding.
Qed.

Lemma pieces_nonempty (s : string) : pieces s ≠ [].
Proof.
  destruct s as [|c s]; cbn [pieces]; [done|].
  destruct (Text.is_quote c); [done|]. by destruct (pieces s).
Qed.

Lemma until_quote_pieces (s : string) :
  pieces s = match until_quote s with
             | (q, Some r) => q :: pieces r
             | (q, None) => [q]
             end.
Proof.
  induction s as [|c s IH]; cbn [pieces until_quote]; [done|].
  destruct (Text.is_quote c); [done|].
  rewrite IH. by destruct (until_quote s) as [q [r|]].
Qed.

Lemma until_quote_length (s q r : string) :
  until_quote s = (q, Some r) → (String.length r < String.length s)%nat.
Proof.
  revert q. induction s as [|c s IH]; intros q; cbn [until_quote]; [done|].
  destruct (Text.is_quote c).
  - intros [= _ ->]. cbn. lia.
  - destruct (until_quote s) as [q' r'] eqn:E. intros [= _ ->].
    specialize (IH _ eq_refl). cbn. lia.
Qed.

Lemma enclosed_head (p p' : string) (ps : list string) :
  enclosed (p :: ps) = enclosed (p' :: ps).
Proof. done. Qed.

Section QuotePattern.

Let closing : list Re.atom := [Re.One Text.is_quote].

Lemma greedy_until_quote (prev : option ascii) (s : string) :
  Re.greedy Text.not_quote (Re.match_here closing) prev s
  = match until_quote s with
    | (q, Some r) => Some (q, ([String Text.quote EmptyString], r))
    | (_, None) => None
    end.
Proof.
  revert prev. induction s as [|c s IH]; intros prev; [done|].
  cbn [Re.greedy until_quote]. unfold Text.not_quote at 1.
  destruct (Text.is_quote c) eqn:Hc; cbn [negb].
  - cbn. rewrite Hc. cbn. by rewrite (is_quote_eq c Hc).
  - rewrite IH. destruct (until_quote s) as [q [r|]]; [done|].
    cbn. by rewrite Hc.
Qed.

Lemma match_here_quote (prev : option ascii) (s : string) :
  Re.match_here (Re.atoms quote_pattern) prev s
  = match s with
    | String c s' =>
        if Text.is_quote c then
          match until_quote s' with
          | (q, Some r) =>
              Some ([String c EmptyString; q; String Text.quote EmptyString], r)
          | (_, None) => None
          end
        else None
    | EmptyString => None
    end.
Proof.
  destruct s as [|c s]; [done|].
  cbn [quote_pattern Re.atoms Re.match_here].
  destruct (Text.is_quote c); [|done].
  fold closing. rewrite greedy_until_quote.
  by destruct (until_quote s) as [q [r|]].
Qed.

End QuotePattern.

Lemma append_cons (c : ascii) (a b : string) :
  String c a +:+ b = String c (a +:+ b).
Proof. reflexivity. Qed.

Lemma append_nil (b : string) : EmptyString +:+ b = b.
Proof. reflexivity. Qed.

Lemma length_append (a b : string) :
  String.length (a +:+ b) = (String.length a + String.length b)%nat.
Proof.
  induction a as [|c a IH]; [done|].
  rewrite append_cons. cbn [String.length]. by rewrite IH.
Qed.

Lemma scan_skip (p : list Re.atom) (q r : string) (c : ascii)
    (prev : option ascii) :
  Re.scan p (S (String.length q)) prev (q +:+ String c r)
  = Re.scan p 0 (Some c) r.
Proof.
  revert prev. induction q as [|d q IH]; intros prev; [done|].
  rewrite append_cons. cbn [String.length Re.scan]. apply IH.
Qed.

Lemma until_quote_split (s q r : string) :
  until_quote s = (q, Some r) → s = q +:+ String Text.quote r.
Proof.
  revert q. induction s as [|c s IH]; intros q; cbn [until_quote]; [done|].
  destruct (Text.is_quote c) eqn:Hc.
  - intros [= <- ->]. by rewrite (is_quote_eq c Hc).
  - destruct (until_quote s) as [q' r'] eqn:E. intros [= <- ->].
    change (String c s = String c (q' +:+ String Text.quote r)).
    f_equal. by apply IH.
Qed.

Lemma whole_length3 (a b c : string) :
  String.length (Re.whole [a; b; c])
  = (String.length a + String.length b + String.length c)%nat.
Proof.
  unfold Re.whole. cbn [String.concat].
  rewrite !length_append. cbn [String.length]. lia.
Qed.

Lemma scan_quotes (n : nat) : ∀ (s : string) (prev : option ascii),
  (String.length s ≤ n)%nat →
  Re.report (Re.group quote_pattern)
    <$> Re.scan (Re.atoms quote_pattern) 0 prev s
  = quoted_substrings s.
Proof.
  induction n as [|n IH]; intros s prev Hn.
  - destruct s; [done|cbn in Hn; lia].
  - destruct s as [|c s]; [done|].
    cbn [Re.scan]. rewrite match_here_quote.
    unfold quoted_substrings. cbn [pieces]. cbn in Hn.
    destruct (Text.is_quote c) eqn:Hc.
    + rewrite until_quote_pieces.
      destruct (until_quote s) as [q [r|]] eqn:E.
      * rewrite whole_length3. cbn [String.length].
        replace (1 + String.length q + 1 - 1)%nat with (S (String.length q)) by lia.
        rewrite (until_quote_split _ _ _ E) at 1. rewrite scan_skip.
        cbn [fmap list_fmap]. pose proof (until_quote_length _ _ _ E).
        rewrite IH by lia. unfold quoted_substrings.
        pose proof (pieces_nonempty r). cbn [enclosed].
        destruct (pieces r) eqn:Er; [done|]. f_equal.
      * rewrite IH by lia. unfold quoted_substrings.
        rewrite until_quote_pieces, E. done.
    + rewrite IH by lia. unfold quoted_substrings.
      pose proof (pieces_nonempty s). destruct (pieces s); [done|].
      apply enclosed_head.
Qed.

Lemma findall_quotes (s : string) :
  Re.findall quote_pattern s = quoted_substrings s.
Proof. unfold Re.findall. by apply (scan_quotes (String.length s)). Qed.

(** ** Fetching *)

Ltac run :=
  unfold try_except, mbind, M_bind, mret, M_ret, lift, requests_get,
         raise_for_status, print, failure in *.

Lemma get_article_text_ok (w : world) (url : string) (status : nat)
    (error : string) (body : document) :
  net w url = Answer status error body →
  is_error status = false →
  get_article_text url w
  = (Return (Some (Re.findall quote_pattern (Text.join " " (paragraphs body)))),
     after_requests w [url]).
Proof.
  intros Hnet Hok. unfold get_article_text. run. by rewrite Hnet, Hok.
Qed.

Lemma get_article_text_failed (w : world) (url e : string) :
  failure (net w url) = Some e →
  get_article_text url w
  = (Return None,
     after_print (after_requests w [url]) ["Error fetching article: " +:+ e]).
Proof.
  intros Hf. unfold get_article_text. run.
  destruct (net w url) as [e'|status error body].
  - by injection Hf as ->.
  - destruct (is_error status); [by injection Hf as ->|done].
Qed.

(** C7: after a successful fetch [get_article_text] returns the substrings
    of the joined paragraph text that are enclosed in double quotation
    marks, in their order; on the text of the example these are hello and
    world. *)
Theorem get_article_text_quoted :
  (∀ (w : world) (url : string) (status : nat) (error : string)
     (body : document),
     net w url = Answer status error body →
     is_error status = false →
     get_article_text url w
     = (Return (Some (quoted_substrings (Text.join " " (paragraphs body)))),
        after_requests w [url]))
  ∧ Re.findall quote_pattern example_text = ["hello"; "world"].
Proof.
  split.
  - intros w url status error body Hnet Hok.
    rewrite (get_article_text_ok w url status error body Hnet Hok).
    by rewrite findall_quotes.
  - vm_compute. reflexivity.
Qed.

(** ** Looking a speaker up *)

Lemma after_requests_nil (w : world) : after_requests w [] = w.
Proof. destruct w. unfold after_requests. cbn. by rewrite app_nil_r. Qed.

Lemma after_requests_app (w : world) (us vs : list string) :
  after_requests (after_requests w us) vs = after_requests w (us ++ vs).
Proof. unfold after_requests. cbn. by rewrite app_assoc. Qed.

Lemma for_results_entries (entries : list entry) (acc : list statement) :
  for_results (result_items entries) acc = (Return tt, acc ++ records entries).
Proof.
  revert acc. induction entries as [|e es IH]; intros acc; cbn.
  - by rewrite app_nil_r.
  - rewrite IH. by rewrite <- app_assoc.
Qed.

Lemma while_true_step (speaker_name : string) (fuel page : nat)
    (acc : list statement) (w : world) (entries : list entry) :
  entries ≠ [] →
  serves w (search_url page speaker_name) (result_items entries) →
  while_true (S fuel) speaker_name page acc w
  = while_true fuel speaker_name (page + 1) (acc ++ records entries)
      (after_requests w [search_url page speaker_name]).
Proof.
  intros Hne (status & error & ps & Hnet & Hok).
  cbn [while_true]. unfold requests_get.
  rewrite Hnet. cbn [raise_for_status]. rewrite Hok. cbn [listicle].
  remember (result_items entries) as items eqn:Hitems.
  destruct items as [|i items].
  - by destruct entries.
  - rewrite Hitems. by rewrite for_results_entries.
Qed.

Lemma while_true_pages (speaker_name : string) (pages : list (list entry)) :
  ∀ (fuel page : nat) (acc : list statement) (w : world),
    (∀ k entries, pages !! k = Some entries →
       entries ≠ []
       ∧ serves w (search_url (page + k) speaker_name) (result_items entries)) →
    while_true (length pages + fuel) speaker_name page acc w
    = while_true fuel speaker_name (page + length pages)
        (acc ++ concat (records <$> pages))
        (after_requests w (page_urls speaker_name page (length pages))).
Proof.
  induction pages as [|entries pages IH]; intros fuel page acc w Hserve.
  - cbn. by rewrite Nat.add_0_r, app_nil_r, after_requests_nil.
  - destruct (Hserve 0%nat entries eq_refl) as [Hne Hpage].
    rewrite Nat.add_0_r in Hpage.
    cbn [length Nat.add]. rewrite (while_true_step _ _ _ _ _ entries Hne Hpage).
    rewrite IH.
    + rewrite after_requests_app. cbn [fmap list_fmap concat].
      rewrite <- app_assoc. unfold page_urls. cbn [seq fmap list_fmap app].
      by rewrite Nat.add_1_r, <- Nat.add_succ_comm.
    + intros k entries' Hk. specialize (Hserve (S k) entries' Hk).
      rewrite Nat.add_1_r, Nat.add_succ_comm. exact Hserve.
Qed.

Lemma page_urls_snoc (speaker_name : string) (count : nat) :
  page_urls speaker_name 1 count ++ [search_url (S count) speaker_name]
  = page_urls speaker_name 1 (S count).
Proof. unfold page_urls. by rewrite seq_S, fmap_app. Qed.

(** The loop run on pages [1 .. length pages], all served and none of
    them empty: it is about to ask for the next page. *)
Lemma while_true_prefix (speaker_name : string) (pages : list (list entry))
    (fuel : nat) (w : world) :
  (∀ k entries, pages !! k = Some entries →
     entries ≠ []
     ∧ serves w (search_url (S k) speaker_name) (result_items entries)) →
  while_true (length pages + fuel) speaker_name 1 [] w
  = while_true fuel speaker_name (S (length pages))
      (concat (records <$> pages))
      (after_requests w (page_urls speaker_name 1 (length pages))).
Proof.
  intros Hserve. by rewrite while_true_pages.
Qed.

(** C4: when page N is the first page without results, the lookup asks for
    the pages 1 to N, no more, and returns the entries of the pages 1 to
    N-1 in page order. Here N is [S (length pages)]. *)
Theorem scrape_stops_at_empty_page (speaker_name : string)
    (pages : list (list entry)) (fuel : nat) (w : world) :
  (∀ k entries, pages !! k = Some entries →
     entries ≠ []
     ∧ serves w (search_url (S k) speaker_name) (result_items entries)) →
  serves w (search_url (S (length pages)) speaker_name) [] →
  length pages < fuel →
  scrape_politifact_for_speaker fuel speaker_name w
  = (Return (concat (records <$> pages)),
     after_requests w (page_urls speaker_name 1 (S (length pages)))).
Proof.
  intros Hserve (status & error & ps & Hnet & Hok) Hfuel.
  unfold scrape_politifact_for_speaker.
  replace fuel with (length pages + S (fuel - S (length pages))) by lia.
  rewrite (while_true_prefix _ _ _ _ Hserve).
  cbn [while_true]. unfold requests_get.
  change (net (after_requests w ?us)) with (net w).
  rewrite Hnet. cbn [raise_for_status]. rewrite Hok. cbn [listicle].
  by rewrite after_requests_app, page_urls_snoc.
Qed.

(** C6: when the request for page K ends in a transport or status error,
    the lookup stops there and returns, as an ordinary result, the records
    of the pages 1 to K-1. Here K is [S (length pages)]. *)
Theorem scrape_returns_partial_results (speaker_name : string)
    (pages : list (list entry)) (fuel : nat) (w : world) (e : string) :
  (∀ k entries, pages !! k = Some entries →
     entries ≠ []
     ∧ serves w (search_url (S k) speaker_name) (result_items entries)) →
  failure (net w (search_url (S (length pages)) speaker_name)) = Some e →
  length pages < fuel →
  scrape_politifact_for_speaker fuel speaker_name w
  = (Return (concat (records <$> pages)),
     after_print
       (after_requests w (page_urls speaker_name 1 (S (length pages))))
       ["Error scraping Politifact for speaker " +:+ speaker_name
          +:+ ": " +:+ e]).
Proof.
  intros Hserve Hfail Hfuel.
  unfold scrape_politifact_for_speaker.
  replace fuel with (length pages + S (fuel - S (length pages))) by lia.
  rewrite (while_true_prefix _ _ _ _ Hserve).
  cbn [while_true]. unfold requests_get.
  change (net (after_requests w ?us)) with (net w).
  unfold failure in Hfail.
  destruct (net w (search_url (S (length pages)) speaker_name))
    as [e'|status error body].
  - injection Hfail as ->. run.
    by rewrite after_requests_app, page_urls_snoc.
  - cbn [raise_for_status]. destruct (is_error status); [|done].
    injection Hfail as ->. run.
    by rewrite after_requests_app, page_urls_snoc.
Qed.

(** ** Writing the result *)

Section Writer.

Variable float_repr : Q → string.

Lemma append_assoc (a b c : string) : (a +:+ b) +:+ c = a +:+ (b +:+ c).
Proof.
  induction a as [|x a IH]; [done|]. rewrite !append_cons. by rewrite IH.
Qed.

Lemma append_empty_r (a : string) : a +:+ EmptyString = a.
Proof. induction a as [|x a IH]; [done|]. rewrite append_cons. by rewrite IH. Qed.




Lemma after_calls_nil (w : world) : after_calls w [] = w.
Proof. destruct w. unfold after_calls. cbn. by rewrite app_nil_r. Qed.

Lemma after_calls_app (w : world) (cs ds : list os_call) :
  after_calls (after_calls w cs) ds = after_calls w (cs ++ ds).
Proof. unfold after_calls. cbn. by rewrite app_assoc. Qed.

Lemma accepts_app (refused : list os_call → os_call → bool)
    (cs ds : list os_call) :
  ∀ done : list os_call,
    accepts refused done (cs ++ ds)
    = accepts refused done cs && accepts refused (done ++ cs) ds.
Proof.
  induction cs as [|c cs IH]; intros done; cbn [app accepts].
  - by rewrite app_nil_r.
  - by rewrite IH, <- app_assoc, andb_assoc.
Qed.

Lemma writable_cons (w : world) (c : os_call) (cs : list os_call) :
  writable w (c :: cs) = true
  ↔ refused w (calls w) c = false ∧ writable (after_calls w [c]) cs = true.
Proof.
  unfold writable. cbn [accepts after_calls refused calls].
  by rewrite andb_true_iff, negb_true_iff.
Qed.

Lemma writable_app (w : world) (cs ds : list os_call) :
  writable w (cs ++ ds) = true
  ↔ writable w cs = true ∧ writable (after_calls w cs) ds = true.
Proof.
  unfold writable. cbn [after_calls refused calls].
  by rewrite accepts_app, andb_true_iff.
Qed.

Lemma call_accepted (w : world) (c : os_call) :
  refused w (calls w) c = false →
  Os.call c w = (Return tt, after_calls w [c]).
Proof. intros H. unfold Os.call. by rewrite H. Qed.

Lemma call_refused (w : world) (c : os_call) :
  refused w (calls w) c = true →
  Os.call c w = (Raised OSError, after_calls w [c]).
Proof. intros H. unfold Os.call. by rewrite H. Qed.

Lemma write_all_accepted (path : string) (pieces : list string) :
  ∀ w : world,
    writable w (Write path <$> pieces) = true →
    Json.write_all path pieces w
    = (Return tt, after_calls w (Write path <$> pieces)).
Proof.
  induction pieces as [|piece rest IH]; intros w Hw.
  - cbn. by rewrite after_calls_nil.
  - cbn [fmap list_fmap] in Hw. apply writable_cons in Hw as [Hc Hw].
    cbn [Json.write_all]. unfold mbind, M_bind, Os.write.
    rewrite (call_accepted w _ Hc), (IH _ Hw).
    by rewrite after_calls_app.
Qed.

Lemma main_write_result (fuel : nat) (url output : string) :
  main float_repr fuel url output
  = speaker_scores ← analyze_speakers_in_article fuel url;
    write_result float_repr speaker_scores output.
Proof. reflexivity. Qed.

Lemma write_result_ok (speaker_scores : dict number) (output : string)
    (w : world) :
  writable w (write_calls output (Json.chunks float_repr speaker_scores))
  = true →
  write_result float_repr speaker_scores output w
  = (Return tt,
     after_print
       (after_calls w
          (write_calls output (Json.chunks float_repr speaker_scores)))
       ["Speaker scores saved to "
          +:+ Os.path_join output "speaker_scores.json"]).
Proof.
  unfold write_calls, write_result. cbn zeta.
  set (path := Os.path_join output "speaker_scores.json").
  intros Hw.
  apply writable_cons in Hw as [Hmake Hw].
  apply writable_cons in Hw as [Hopen Hw].
  apply writable_app in Hw as [Hwrite Hw].
  apply writable_cons in Hw as [Hclose _].
  rewrite !after_calls_app in *. cbn [app] in *.
  unfold with_open, finally, Json.dump, mbind, M_bind,
         Os.makedirs, Os.open_w, Os.close.
  rewrite (call_accepted _ _ Hmake), (call_accepted _ _ Hopen).
  rewrite !after_calls_app. cbn [app].
  rewrite (write_all_accepted _ _ _ Hwrite), !after_calls_app.
  cbv beta iota. cbn [app].
  rewrite (call_accepted _ _ Hclose), !after_calls_app.
  unfold print. by cbn [app].
Qed.

End Writer.


Lemma analyze_fetch_failed (fuel : nat) (url e : string) (w : world) :
  failure (net w url) = Some e →
  analyze_speakers_in_article fuel url w
  = (Return [],
     after_print (after_requests w [url]) ["Error fetching article: " +:+ e]).
Proof.
  intros Hf. unfold analyze_speakers_in_article, mbind, M_bind.
  by rewrite (get_article_text_failed w url e Hf).
Qed.

(** C5, as the code has it: when the fetch of the article ends in a
    transport error or in an answer with a status from 400 to 599, the
    mapping is empty and [main] still writes [speaker_scores.json], the
    empty object [{}] being all it writes; this is when the system
    refuses none of the calls. *)
Theorem fetch_failure_writes_empty_object (float_repr : Q → string)
    (fuel : nat) (url output e : string) (w : world) :
  failure (net w url) = Some e →
  writable w (write_calls output ["{}"]) = true →
  let w1 := after_print (after_requests w [url])
              ["Error fetching article: " +:+ e] in
  analyze_speakers_in_article fuel url w = (Return [], w1)
  ∧ main float_repr fuel url output w
    = (Return tt,
       after_print
         (after_calls w1 (write_calls output ["{}"]))
         ["Speaker scores saved to "
            +:+ Os.path_join output "speaker_scores.json"]).
Proof.
  intros Hf Hw w1. split; [by apply analyze_fetch_failed|].
  rewrite main_write_result. unfold mbind, M_bind at 1.
  rewrite (analyze_fetch_failed fuel url e w Hf).
  by rewrite write_result_ok.
Qed.

(** C5, as the claim words it, fails: an answer with status 300 is none
    with a status of success, yet the statements of its page are read, a
    speaker is found in them and the file holds a member for it. *)
Lemma fetch_status_300_finds_speakers :
  let w1 := after_requests Trial.moved_world
              [Trial.moved_url; search_url 1 "E U"] in
  (∃ error body,
     net Trial.moved_world Trial.moved_url = Answer 300 error body)
  ∧ analyze_speakers_in_article 1 Trial.moved_url Trial.moved_world
    = (Return [("E U", Int 0)], w1)
  ∧ main Demo.float_repr 1 Trial.moved_url "out" Trial.moved_world
    = (Return tt,
       after_print
         (after_calls w1
            (write_calls "out"
               (Json.chunks Demo.float_repr [("E U", Int 0)])))
         ["Speaker scores saved to "
            +:+ Os.path_join "out" "speaker_scores.json"]).
Proof.
  split; [by eexists _, _|]. split; vm_compute; reflexivity.
Qed.

(** ** What the pattern can find *)

Lemma join_characters (s : string) :
  Text.join " " (Text.characters s) = spaced s.
Proof.
  unfold Text.join. induction s as [|c s IH]; [done|].
  destruct s as [|d s]; [done|].
  cbn [Text.characters String.concat spaced] in *. by rewrite IH.
Qed.

Lemma sparse_tail (c : ascii) (s : string) : sparse (String c s) → sparse s.
Proof. by intros [_ H]. Qed.

Lemma sparse_spaced (s : string) : sparse (spaced s).
Proof.
  induction s as [|c s IH]; [done|].
  destruct s as [|d s]; [done|].
  cbn [spaced sparse] in *. split; [by right|]. split; [|done].
  destruct s; by left.
Qed.

(** Every match [scan] reports is a match at some place of the text. *)
Lemma scan_Forall (P : list string → Prop) (Q : string → Prop)
    (p : list Re.atom) :
  (∀ c s, Q (String c s) → Q s) →
  (∀ prev s ws r, Q s → Re.match_here p prev s = Some (ws, r) → P ws) →
  ∀ s skip prev, Q s → Forall P (Re.scan p skip prev s).
Proof.
  intros Htail Hmatch. induction s as [|c s IH]; intros skip prev HQ.
  - destruct skip as [|n]; cbn [Re.scan]; [|constructor].
    destruct (Re.match_here p prev EmptyString) as [[ws r]|] eqn:E;
      repeat constructor. by eapply Hmatch.
  - destruct skip as [|n]; cbn [Re.scan]; [|by eapply IH, Htail].
    destruct (Re.match_here p prev (String c s)) as [[ws r]|] eqn:E.
    + constructor; [by eapply Hmatch|]. by eapply IH, Htail.
    + by eapply IH, Htail.
Qed.

Lemma match_here_sparse (prev : option ascii) (s : string)
    (ws : list string) (r : string) :
  sparse s →
  Re.match_here (Re.atoms speaker_pattern) prev s = Some (ws, r) →
  initials (Re.whole ws).
Proof.
  intros Hs. cbn [speaker_pattern Re.atoms Re.match_here].
  destruct (Re.at_boundary prev s); [|done].
  destruct s as [|a s]; [done|].
  destruct (Text.is_upper a) eqn:Ha; [|done].
  destruct s as [|sp s]; [done|].
  destruct Hs as [[->| ->] Hs]; [done|].
  cbn [Re.greedy]. change (Text.is_lower " ") with false. cbn match.
  cbn [Re.match_here]. change (Text.is_space " ") with true. cbn match.
  destruct s as [|b s]; [done|].
  destruct (Text.is_upper b) eqn:Hb; [|done].
  destruct s as [|d s].
  - cbn. destruct (Re.at_boundary _ _); [|done].
    intros [= <- <-]. by exists a, b.
  - destruct Hs as [_ [[->| ->] Hs]]; [done|].
    cbn [Re.greedy]. change (Text.is_lower " ") with false. cbn match.
    cbn [Re.match_here]. destruct (Re.at_boundary _ _); [|done].
    cbn. intros [= <- <-]. by exists a, b.
Qed.

(** Handed a [str], [identify_speakers] finds nothing but pairs of
    capital letters that stand next to each other in it. *)
Lemma identify_speakers_str (s name : string) :
  name ∈ identify_speakers (Str s) → initials name.
Proof.
  unfold identify_speakers. rewrite elem_of_elements, elem_of_list_to_set.
  cbn [iter]. rewrite join_characters. unfold Re.findall.
  cbn [speaker_pattern Re.group Re.report].
  intros Hin. apply list_elem_of_fmap in Hin as (ws & -> & Hin).
  revert ws Hin. apply Forall_forall.
  apply (scan_Forall _ sparse).
  - apply sparse_tail.
  - intros prev t ws r. apply match_here_sparse.
  - apply sparse_spaced.
Qed.

Lemma greedy_spec {R : Type} (cls : ascii → bool)
    (k : option ascii → string → option R) (s : string) :
  ∀ (prev : option ascii) (w : string) (x : R),
    Re.greedy cls k prev s = Some (w, x) →
    every cls w ∧ ∃ prev' s', s = w +:+ s' ∧ k prev' s' = Some x.
Proof.
  induction s as [|c s IH]; intros prev w x; cbn [Re.greedy].
  - destruct (k prev EmptyString) as [y|] eqn:E; [|done].
    intros [= <- <-]. split; [done|]. by exists prev, EmptyString.
  - assert (Hstop : pair EmptyString <$> k prev (String c s) = Some (w, x) →
                    every cls w ∧ ∃ prev' s', String c s = w +:+ s'
                                              ∧ k prev' s' = Some x).
    { destruct (k prev (String c s)) as [y|] eqn:E; [|done].
      intros [= <- <-]. split; [done|]. by exists prev, (String c s). }
    destruct (cls c) eqn:Hc; [|done].
    destruct (Re.greedy cls k (Some c) s) as [[w' x']|] eqn:E; [|done].
    intros [= <- <-]. destruct (IH _ _ _ E) as (Hw & prev' & s' & -> & Hk).
    split; [done|]. by exists prev', s'.
Qed.

Lemma whole_cons (x y : string) (l : list string) :
  Re.whole (x :: y :: l) = x +:+ Re.whole (y :: l).
Proof. reflexivity. Qed.

Lemma whole_one (x : string) : Re.whole [x] = x.
Proof. reflexivity. Qed.

Lemma match_here_speaker (prev : option ascii) (s : string)
    (ws : list string) (r : string) :
  Re.match_here (Re.atoms speaker_pattern) prev s = Some (ws, r) →
  two_capitalized_words (Re.whole ws) ∧ s = Re.whole ws +:+ r.
Proof.
  cbn [speaker_pattern Re.atoms]. cbn [Re.match_here].
  destruct (Re.at_boundary prev s); [|done].
  destruct s as [|a s]; [done|].
  destruct (Text.is_upper a) eqn:Ha; [|done].
  destruct (Re.greedy Text.is_lower _ (Some a) s)
    as [[l1 [ws1 r1]]|] eqn:E1; [|done].
  apply greedy_spec in E1 as (Hl1 & prev1 & s1 & -> & Hk1).
  destruct s1 as [|sp s1]; [done|].
  destruct (Text.is_space sp) eqn:Hsp; [|done].
  destruct s1 as [|b s1]; [done|].
  destruct (Text.is_upper b) eqn:Hb; [|done].
  destruct (Re.greedy Text.is_lower _ (Some b) s1)
    as [[l2 [ws2 r2]]|] eqn:E2; [|done].
  apply greedy_spec in E2 as (Hl2 & prev2 & s2 & -> & Hk2).
  destruct (Re.at_boundary prev2 s2); [|done].
  cbn in Hk2. injection Hk2 as <- <-.
  cbn in Hk1. injection Hk1 as <- <-.
  cbn. intros [= <- <-].
  rewrite !whole_cons, whole_one, !append_nil, append_empty_r.
  rewrite !append_cons, !append_nil. split.
  - exists (String a l1), sp, (String b l2).
    by rewrite append_cons.
  - by rewrite append_assoc, !append_cons.
Qed.

(** Every speaker [identify_speakers] returns is a run of two capitalized
    words of the text it joined. *)
Lemma identify_speakers_sound (article_text : iterable) (name : string) :
  name ∈ identify_speakers article_text →
  two_capitalized_words name
  ∧ ∃ before after,
      Text.join " " (iter article_text) = before +:+ name +:+ after.
Proof.
  unfold identify_speakers. rewrite elem_of_elements, elem_of_list_to_set.
  set (text := Text.join " " (iter article_text)). unfold Re.findall.
  cbn [speaker_pattern Re.group Re.report].
  intros Hin. apply list_elem_of_fmap in Hin as (ws & -> & Hin).
  revert ws Hin. apply Forall_forall.
  apply (scan_Forall _ (λ s, ∃ before, text = before +:+ s)).
  - intros c s [before ->]. exists (before +:+ String c EmptyString).
    by rewrite append_assoc.
  - intros prev s ws r [before ->] Hm.
    apply match_here_speaker in Hm as [Hname ->]. split; [done|].
    by exists before, r.
  - by exists EmptyString.
Qed.

(** A text without a run of two capitalized words has no speakers. *)
Lemma identify_speakers_none (article_text : iterable) :
  (∀ before name after,
     Text.join " " (iter article_text) = before +:+ name +:+ after →
     ¬ two_capitalized_words name) →
  identify_speakers article_text = [].
Proof.
  intros Hno. destruct (identify_speakers article_text) as [|name l] eqn:E;
    [done|].
  assert (Hin : name ∈ identify_speakers article_text)
    by (rewrite E; apply list_elem_of_here).
  apply identify_speakers_sound in Hin as (Hname & before & after & Htext).
  by destruct (Hno before name after Htext).
Qed.

(** The statement of the example, quoted in the only paragraph of a
    page. *)
Lemma quoted_john_smith :
  Re.findall quote_pattern
    (Text.join " " [in_quotes "John Smith said this"])
  = ["John Smith said this"].
Proof. vm_compute. reflexivity. Qed.

(** C1: in the pipeline [identify_speakers] is handed the joined text, a
    [str]; joining it once more puts a space between any two characters,
    and the pattern finds no name in John Smith said this: an article that
    quotes just that gets the empty mapping, and no lookup is made. Handed
    the list of statements, [identify_speakers] finds John Smith. *)
Theorem identify_speakers_john_smith :
  identify_speakers (Str (Text.join " " ["John Smith said this"])) = []
  ∧ identify_speakers (Strs ["John Smith said this"]) = ["John Smith"]
  ∧ ∀ (fuel : nat) (w : world) (url : string) (status : nat)
      (error : string) (items : list item),
      net w url
      = Answer status error
          (Document [in_quotes "John Smith said this"] items) →
      is_error status = false →
      analyze_speakers_in_article fuel url w
      = (Return [], after_requests w [url]).
Proof.
  assert (Hnone :
    identify_speakers (Str (Text.join " " ["John Smith said this"])) = [])
    by (vm_compute; reflexivity).
  split; [exact Hnone|]. split; [vm_compute; reflexivity|].
  intros fuel w url status error items Hnet Hok.
  unfold analyze_speakers_in_article, mbind, M_bind.
  rewrite (get_article_text_ok w url status error _ Hnet Hok).
  cbn [paragraphs]. rewrite quoted_john_smith. by rewrite Hnone.
Qed.

(** ** The theorems at work in the small world *)

(** The lookup of John Smith: two pages of fact checks, three requests. *)
Lemma scrape_stops_at_empty_page_witness :
  scrape_politifact_for_speaker 3 "John Smith" Demo.start
  = (Return (concat (records <$> Demo.smith_pages)),
     after_requests Demo.start (page_urls "John Smith" 1 3)).
Proof.
  apply (scrape_stops_at_empty_page "John Smith" Demo.smith_pages 3 Demo.start).
  - intros [|[|k]] entries Hk; cbn in Hk; [| |done];
      injection Hk as <-; (split; [done|]);
      exists 200%nat, "OK", []; split; vm_compute; reflexivity.
  - exists 200%nat, "OK", []. split; vm_compute; reflexivity.
  - cbn. lia.
Defined.

(** The lookup of Mary Jones: the second request ends in a 503. *)
Lemma scrape_returns_partial_results_witness :
  scrape_politifact_for_speaker 5 "Mary Jones" Demo.start
  = (Return (concat (records <$> Demo.jones_pages)),
     after_print
       (after_requests Demo.start (page_urls "Mary Jones" 1 2))
       ["Error scraping Politifact for speaker " +:+ "Mary Jones"
          +:+ ": " +:+ "503 Server Error"]).
Proof.
  apply (scrape_returns_partial_results "Mary Jones" Demo.jones_pages 5
           Demo.start "503 Server Error").
  - intros [|k] entries Hk; cbn in Hk; [|done].
    injection Hk as <-. split; [done|].
    exists 200%nat, "OK", []. split; vm_compute; reflexivity.
  - vm_compute. reflexivity.
  - cbn. lia.
Defined.

(** The article of the small world is fetched and its statements read. *)
Lemma get_article_text_quoted_witness :
  get_article_text Demo.article_url Demo.start
  = (Return (Some (quoted_substrings
                     (Text.join " " (paragraphs Demo.article)))),
     after_requests Demo.start [Demo.article_url]).
Proof.
  apply (proj1 get_article_text_quoted Demo.start Demo.article_url 200%nat "OK").
  - vm_compute. reflexivity.
  - vm_compute. reflexivity.
Defined.

(** An article that cannot be reached: the empty object is written. *)
Lemma fetch_failure_writes_empty_object_witness :
  let w1 := after_print (after_requests Demo.start ["https://gone.example"])
              ["Error fetching article: " +:+ "no route to host"] in
  analyze_speakers_in_article 3 "https://gone.example" Demo.start
  = (Return [], w1)
  ∧ main Demo.float_repr 3 "https://gone.example" "out" Demo.start
    = (Return tt,
       after_print
         (after_calls w1 (write_calls "out" ["{}"]))
         ["Speaker scores saved to "
            +:+ Os.path_join "out" "speaker_scores.json"]).
Proof.
  apply (fetch_failure_writes_empty_object Demo.float_repr 3
           "https://gone.example" "out" "no route to host" Demo.start).
  - vm_compute. reflexivity.
  - vm_compute. reflexivity.
Defined.


(** * Further properties *)

(** ** Scores at the ends of the scale *)

Lemma sum_of_one_rating (label : string) (z : Z) (sts : list statement) :
  rating_value label = Int z →
  Forall (λ s, rating s = label) sts →
  ∀ a : Z,
    fold_left add ((λ s, rating_value (rating s)) <$> sts) (Int a)
    = Int (a + z * Z.of_nat (length sts)).
Proof.
  intros Hz. induction 1 as [|st sts Hst _ IH]; intros a.
  - cbn. f_equal. lia.
  - cbn [fmap list_fmap fold_left length]. rewrite Hst, Hz. cbn [add].
    rewrite IH. f_equal. lia.
Qed.

Lemma score_of_one_rating (label : string) (z : Z) (st : statement)
    (sts : list statement) :
  rating_value label = Int z →
  Forall (λ s, rating s = label) (st :: sts) →
  (value (calculate_speaker_score (st :: sts)) == round (inject_Z z))%Q.
Proof.
  intros Hz Hall. rewrite score_nonempty. unfold sum.
  rewrite (sum_of_one_rating label z _ Hz Hall). cbn [truediv value].
  apply round_proper.
  rewrite Z.add_0_l, inject_Z_mult. field.
  change 0%Q with (inject_Z 0). rewrite inject_Z_injective.
  cbn [length]. lia.
Qed.

(** X1: a speaker whose fact checks are all rated True scores 1, and one
    whose fact checks are all rated Pants on Fire! scores -1. *)
Theorem score_at_the_ends (st : statement) (sts : list statement) :
  (Forall (λ s, rating s = "True") (st :: sts) →
   (value (calculate_speaker_score (st :: sts)) == 1)%Q)
  ∧ (Forall (λ s, rating s = "Pants on Fire!") (st :: sts) →
     (value (calculate_speaker_score (st :: sts)) == -1)%Q).
Proof.
  split; intros Hall.
  - by rewrite (score_of_one_rating "True" 1 st sts eq_refl Hall).
  - by rewrite (score_of_one_rating "Pants on Fire!" (-1) st sts eq_refl Hall).
Qed.

Lemma score_at_the_ends_witness :
  (value (calculate_speaker_score
            [Statement "a" "True"; Statement "b" "True"]) == 1)%Q
  ∧ (value (calculate_speaker_score
              [Statement "a" "Pants on Fire!"; Statement "b" "Pants on Fire!";
               Statement "c" "Pants on Fire!"]) == -1)%Q.
Proof.
  split.
  - apply (proj1 (score_at_the_ends (Statement "a" "True")
                    [Statement "b" "True"])).
    by repeat constructor.
  - apply (proj2 (score_at_the_ends (Statement "a" "Pants on Fire!")
                    [Statement "b" "Pants on Fire!";
                     Statement "c" "Pants on Fire!"])).
    by repeat constructor.
Defined.

(** ** Statements *)

Lemma pieces_quote_free (s : string) : Forall quote_free (pieces s).
Proof.
  induction s as [|c s IH]; cbn [pieces]; [by repeat constructor|].
  destruct (Text.is_quote c) eqn:Hc; [by constructor|].
  assert (Hnq : Text.not_quote c = true)
    by (unfold Text.not_quote; by rewrite Hc).
  destruct (pieces s) as [|p ps].
  - constructor; [|constructor]. by split.
  - apply Forall_cons in IH as [Hp Hps]. constructor; [|done]. by split.
Qed.

Lemma enclosed_Forall (P : string → Prop) (n : nat) :
  ∀ ps : list string,
    (length ps ≤ n)%nat → Forall P ps → Forall P (enclosed ps).
Proof.
  induction n as [|n IH]; intros ps Hn Hps.
  - destruct ps; [constructor|cbn in Hn; lia].
  - destruct ps as [|a [|q [|b rest]]]; [constructor..|].
    change (enclosed (a :: q :: b :: rest)) with (q :: enclosed (b :: rest)).
    apply Forall_cons in Hps as [_ [Hq Hrest]%Forall_cons].
    constructor; [done|]. apply IH; [cbn in *; lia|done].
Qed.

(** X2: no statement that the quote pattern extracts holds a double
    quote. *)
Theorem statements_hold_no_quote (text : string) :
  Forall quote_free (Re.findall quote_pattern text).
Proof.
  rewrite findall_quotes. unfold quoted_substrings.
  apply (enclosed_Forall _ (length (pieces text))); [done|].
  apply pieces_quote_free.
Qed.

Lemma pieces_plain (s : string) : quote_free s → pieces s = [s].
Proof.
  induction s as [|c s IH]; [done|]. intros [Hc Hs].
  cbn [pieces]. unfold Text.not_quote in Hc.
  destruct (Text.is_quote c); [done|]. by rewrite IH.
Qed.

Lemma pieces_up_to_quote (a r : string) :
  quote_free a → pieces (a +:+ String Text.quote r) = a :: pieces r.
Proof.
  induction a as [|c a IH]; [done|]. intros [Hc Ha].
  rewrite append_cons. cbn [pieces]. unfold Text.not_quote in Hc.
  destruct (Text.is_quote c); [done|]. by rewrite IH.
Qed.

Lemma quoting_cons (before stmt : string) (parts : list (string * string))
    (rest : string) :
  quoting ((before, stmt) :: parts) rest
  = before +:+ String Text.quote
      (stmt +:+ String Text.quote (quoting parts rest)).
Proof.
  cbn [quoting]. unfold in_quotes.
  by rewrite append_cons, append_assoc, append_cons, append_nil.
Qed.

Lemma pieces_quoting (parts : list (string * string)) (rest : string) :
  Forall (λ p, quote_free p.1 ∧ quote_free p.2) parts →
  quote_free rest →
  enclosed (pieces (quoting parts rest)) = parts.*2.
Proof.
  intros Hparts Hrest. induction Hparts as [|[before stmt] parts [Hb Hs] _ IH].
  - cbn [quoting]. by rewrite pieces_plain.
  - rewrite quoting_cons, !pieces_up_to_quote by done.
    pose proof (pieces_nonempty (quoting parts rest)) as Hne.
    cbn [enclosed fmap list_fmap snd].
    destruct (pieces (quoting parts rest)) as [|p ps]; [done|].
    by rewrite IH.
Qed.

(** X3: from a text written around statements, none of its parts holding
    a double quote, the quote pattern extracts just the statements, in
    their order. *)
Theorem statements_read_back (parts : list (string * string))
    (rest : string) :
  Forall (λ p, quote_free p.1 ∧ quote_free p.2) parts →
  quote_free rest →
  Re.findall quote_pattern (quoting parts rest) = parts.*2.
Proof.
  intros Hparts Hrest. rewrite findall_quotes.
  by apply pieces_quoting.
Qed.

Lemma statements_read_back_witness :
  Re.findall quote_pattern
    (quoting [("He said ", "hello"); (" and then, ", EmptyString)] " at last")
  = [("He said ", "hello"); (" and then, ", EmptyString)].*2.
Proof.
  apply (statements_read_back
           [("He said ", "hello"); (" and then, ", EmptyString)] " at last").
  - repeat constructor.
  - repeat constructor.
Defined.

(** ** The fetch *)

Lemma after_print_nil (w : world) : after_print w [] = w.
Proof. destruct w. unfold after_print. cbn. by rewrite app_nil_r. Qed.

Lemma after_print_app (w : world) (us vs : list string) :
  after_print (after_print w us) vs = after_print w (us ++ vs).
Proof. unfold after_print. cbn. by rewrite app_assoc. Qed.

(** X4: [get_article_text] never raises and asks for the page once. When
    the fetch ends in a transport error or in a status from 400 to 599 it
    prints one line, the error after the words Error fetching article,
    and returns [None]; else it prints nothing and returns the quoted
    statements of the page, the empty list if there is none. *)
Theorem get_article_text_outcome (url : string) (w : world) :
  get_article_text url w
  = match net w url with
    | Unreachable e =>
        (Return None,
         after_print (after_requests w [url])
           ["Error fetching article: " +:+ e])
    | Answer status error body =>
        if is_error status then
          (Return None,
           after_print (after_requests w [url])
             ["Error fetching article: " +:+ error])
        else
          (Return (Some (quoted_substrings
                           (Text.join " " (paragraphs body)))),
           after_requests w [url])
    end.
Proof.
  destruct (net w url) as [e|status error body] eqn:Hnet.
  - apply get_article_text_failed. by rewrite Hnet.
  - destruct (is_error status) eqn:Hok.
    + apply get_article_text_failed. rewrite Hnet. cbn. by rewrite Hok.
    + rewrite (get_article_text_ok w url status error body Hnet Hok).
      by rewrite findall_quotes.
Qed.

(** ** The lookup loop *)

Lemma page_urls_one (speaker_name : string) (page : nat) :
  page_urls speaker_name page 1 = [search_url page speaker_name].
Proof. reflexivity. Qed.

Lemma page_urls_cons (speaker_name : string) (page k : nat) :
  search_url page speaker_name :: page_urls speaker_name (page + 1) k
  = page_urls speaker_name page (S k).
Proof. unfold page_urls. cbn [seq fmap list_fmap]. by rewrite Nat.add_1_r. Qed.

(** Whatever the site answers, the loop asks for consecutive pages and
    nothing else, at most one per unit of fuel. *)
Lemma while_true_requests (speaker_name : string) (fuel : nat) :
  ∀ (page : nat) (acc : list statement) (w : world),
    ∃ k : nat, (k ≤ fuel)%nat
         ∧ (while_true fuel speaker_name page acc w).2
           = after_requests w (page_urls speaker_name page k).
Proof.
  induction fuel as [|fuel IH]; intros page acc w.
  - exists 0%nat. split; [done|]. by rewrite after_requests_nil.
  - cbn [while_true]. unfold requests_get.
    assert (Hone : ∃ k : nat, (k ≤ S fuel)%nat
                        ∧ after_requests w [search_url page speaker_name]
                          = after_requests w (page_urls speaker_name page k))
      by (exists 1%nat; split; [lia|done]).
    destruct (net w (search_url page speaker_name))
      as [e|status error [ps items]]; [done|].
    cbn [raise_for_status]. destruct (is_error status); [done|].
    cbn [listicle]. destruct items as [|i items]; [done|].
    destruct (for_results (i :: items) acc) as [[st| |] acc'] eqn:E;
      [|done..].
    destruct (IH (page + 1) acc'
                (after_requests w [search_url page speaker_name]))
      as (k & Hk & Hw).
    exists (S k). split; [lia|].
    rewrite Hw, after_requests_app. cbn [app]. by rewrite page_urls_cons.
Qed.

Lemma scrape_world (fuel : nat) (speaker_name : string) (w : world) :
  ∃ (k : nat) (lines : list string),
    (k ≤ fuel)%nat ∧ (length lines ≤ 1)%nat
    ∧ (scrape_politifact_for_speaker fuel speaker_name w).2
      = after_print (after_requests w (page_urls speaker_name 1 k)) lines.
Proof.
  unfold scrape_politifact_for_speaker.
  destruct (while_true_requests speaker_name fuel 1 [] w) as (k & Hk & Hw).
  destruct (while_true fuel speaker_name 1 [] w) as [[o sts] w'].
  cbn [snd] in Hw. subst w'.
  destruct o as [[]|[e| |]|].
  2:{ exists k, ["Error scraping Politifact for speaker " +:+ speaker_name
                   +:+ ": " +:+ e].
      run. cbn [fst snd length]. split; [done|]. split; [lia|done]. }
  all: exists k, []; rewrite after_print_nil; cbn [fst snd length];
    (split; [done|]); (split; [lia|done]).
Qed.

(** X5: whatever the site answers, a lookup asks for the pages 1, 2, 3, ...
    of the speaker in this order and for nothing else, prints at most one
    line, leaves the rest of the world alone, and never hands a
    [RequestException] on to its caller. *)
Theorem scrape_requests_consecutive_pages (fuel : nat)
    (speaker_name : string) (w : world) :
  (∃ (k : nat) (lines : list string),
     (k ≤ fuel)%nat ∧ (length lines ≤ 1)%nat
     ∧ (scrape_politifact_for_speaker fuel speaker_name w).2
       = after_print (after_requests w (page_urls speaker_name 1 k)) lines)
  ∧ ∀ e, (scrape_politifact_for_speaker fuel speaker_name w).1
         ≠ Raised (RequestException e).
Proof.
  split; [apply scrape_world|].
  intros e. unfold scrape_politifact_for_speaker.
  destruct (while_true fuel speaker_name 1 [] w) as [[o sts] w'].
  by destruct o as [[]|[e'| |]|].
Qed.

(** X6: nothing bounds the number of pages: on a site that has results on
    every page the lookup uses up any fuel it is given, asking for one
    page after the other. *)
Theorem scrape_never_stops (speaker_name : string)
    (entries : nat → list entry) (w : world) (fuel : nat) :
  (∀ page : nat, (1 ≤ page)%nat →
     entries page ≠ []
     ∧ serves w (search_url page speaker_name) (result_items (entries page))) →
  scrape_politifact_for_speaker fuel speaker_name w
  = (OutOfFuel, after_requests w (page_urls speaker_name 1 fuel)).
Proof.
  intros Hserve. unfold scrape_politifact_for_speaker.
  pose (pages := entries <$> seq 1 fuel).
  assert (Hlen : length pages = fuel)
    by (unfold pages; by rewrite length_fmap, length_seq).
  replace fuel with (length pages + 0) at 1 by lia.
  rewrite while_true_prefix.
  - cbn [while_true]. by rewrite Hlen.
  - intros k es Hk. unfold pages in Hk.
    rewrite list_lookup_fmap in Hk.
    destruct (seq 1 fuel !! k) as [page|] eqn:Hseq; [|done].
    apply lookup_seq in Hseq as [-> _]. injection Hk as <-.
    apply Hserve. lia.
Qed.

Lemma scrape_never_stops_witness :
  scrape_politifact_for_speaker 7 "Ann Lee" Trial.endless_world
  = (OutOfFuel,
     after_requests Trial.endless_world (page_urls "Ann Lee" 1 7)).
Proof.
  apply (scrape_never_stops "Ann Lee" (λ _, [("Again", "True")])
           Trial.endless_world 7).
  intros page _. split; [done|].
  exists 200%nat, "OK", []. by split.
Defined.

Lemma for_results_unreadable (items : list item) :
  Exists unreadable items →
  ∀ acc, (for_results items acc).1 = Raised ParseError.
Proof.
  induction 1 as [it items Hbad|it items _ IH]; intros acc;
    cbn [for_results]; unfold read_result.
  - destruct Hbad as [-> | ->]; [done|].
    by destruct (statement_quote it).
  - destruct (statement_quote it); [|done].
    destruct (meter_alt it); [|done]. apply IH.
Qed.

(** X7: an entry the script cannot read is not caught: when the pages
    before are in order and page K holds such an entry, the lookup raises
    after K requests and the records of the pages before are lost with
    it. Here K is [S (length pages)]. *)
Theorem scrape_raises_on_unreadable (speaker_name : string)
    (pages : list (list entry)) (items : list item) (fuel : nat)
    (w : world) :
  (∀ k entries, pages !! k = Some entries →
     entries ≠ []
     ∧ serves w (search_url (S k) speaker_name) (result_items entries)) →
  serves w (search_url (S (length pages)) speaker_name) items →
  Exists unreadable items →
  length pages < fuel →
  scrape_politifact_for_speaker fuel speaker_name w
  = (Raised ParseError,
     after_requests w (page_urls speaker_name 1 (S (length pages)))).
Proof.
  intros Hserve (status & error & ps & Hnet & Hok) Hbad Hfuel.
  unfold scrape_politifact_for_speaker.
  replace fuel with (length pages + S (fuel - S (length pages))) by lia.
  rewrite (while_true_prefix _ _ _ _ Hserve).
  cbn [while_true]. unfold requests_get.
  change (net (after_requests w ?us)) with (net w).
  rewrite Hnet. cbn [raise_for_status]. rewrite Hok. cbn [listicle].
  pose proof (for_results_unreadable items Hbad
                (concat (records <$> pages))) as Hraise.
  destruct items as [|i items]; [by apply Exists_nil in Hbad|].
  destruct (for_results (i :: items) (concat (records <$> pages)))
    as [o acc']. cbn [fst] in Hraise. subst o.
  by rewrite after_requests_app, page_urls_snoc.
Qed.

Lemma scrape_raises_on_unreadable_witness :
  scrape_politifact_for_speaker 4 "A L" Trial.broken_world
  = (Raised ParseError,
     after_requests Trial.broken_world (page_urls "A L" 1 2)).
Proof.
  apply (scrape_raises_on_unreadable "A L" [[("First", "True")]]
           [Item (Some "Second") (Some "False"); Item (Some "Third") None]
           4 Trial.broken_world).
  - intros [|k] entries Hk; cbn in Hk; [|done].
    injection Hk as <-. split; [done|].
    exists 200%nat, "OK", []. split; vm_compute; reflexivity.
  - exists 200%nat, "OK", []. split; vm_compute; reflexivity.
  - apply Exists_cons_tl, Exists_cons_hd. by right.
  - cbn. lia.
Defined.

(** ** The analysis *)

Lemma grows_refl (w : world) : grows w w.
Proof. by repeat split. Qed.

Lemma grows_trans (w1 w2 w3 : world) :
  grows w1 w2 → grows w2 w3 → grows w1 w3.
Proof.
  intros (Hn & Hr & Hc & Hq & Ho) (Hn' & Hr' & Hc' & Hq' & Ho').
  repeat split; try congruence; by etrans.
Qed.

Lemma grows_after (w : world) (urls lines : list string) :
  grows w (after_print (after_requests w urls) lines).
Proof.
  repeat split; cbn; by apply prefix_app_r.
Qed.

Lemma scrape_grows (fuel : nat) (speaker_name : string) (w : world) :
  grows w (scrape_politifact_for_speaker fuel speaker_name w).2.
Proof.
  destruct (scrape_world fuel speaker_name w) as (k & lines & _ & _ & ->).
  apply grows_after.
Qed.

Lemma get_article_text_grows (url : string) (w : world) :
  grows w (get_article_text url w).2.
Proof.
  destruct (failure (net w url)) as [e|] eqn:Hf.
  - rewrite (get_article_text_failed w url e Hf). apply grows_after.
  - unfold failure in Hf.
    destruct (net w url) as [e|status error body] eqn:Hnet; [done|].
    destruct (is_error status) eqn:Hok; [done|].
    rewrite (get_article_text_ok w url status error body Hnet Hok).
    cbn [snd]. rewrite <- (after_print_nil (after_requests w [url])).
    apply grows_after.
Qed.

Lemma for_speakers_grows (fuel : nat) (speakers : list string) :
  ∀ (acc : dict number) (w : world),
    grows w (for_speakers fuel speakers acc w).2.
Proof.
  induction speakers as [|speaker rest IH]; intros acc w.
  - apply grows_refl.
  - cbn [for_speakers]. unfold mbind, M_bind.
    pose proof (scrape_grows fuel speaker w) as Hs.
    destruct (scrape_politifact_for_speaker fuel speaker w) as [[sts|e|] w1];
      cbn [snd] in Hs; [|done..].
    eapply grows_trans; [exact Hs|apply IH].
Qed.

Lemma analysis_grows (fuel : nat) (url : string) (w : world) :
  grows w (analyze_speakers_in_article fuel url w).2.
Proof.
  unfold analyze_speakers_in_article, mbind, M_bind.
  pose proof (get_article_text_grows url w) as Hg.
  destruct (get_article_text url w) as [[[statements|]|e|] w1];
    cbn [snd] in Hg; [|done..].
  eapply grows_trans; [exact Hg|apply for_speakers_grows].
Qed.

(** X8: the analysis, however it ends, only adds to the log of requests
    and to the output: it asks nothing of the file system, so that it makes
    no directory and writes no file, and does not change what the site
    serves. *)
Theorem analysis_leaves_files_alone (fuel : nat) (url : string) (w : world) :
  let w' := (analyze_speakers_in_article fuel url w).2 in
  calls w' = calls w
  ∧ net w' = net w ∧ refused w' = refused w
  ∧ (∃ more, requests w' = requests w ++ more)
  ∧ (∃ more, stdout w' = stdout w ++ more).
Proof.
  destruct (analysis_grows fuel url w) as (Hn & Hr & Hc & Hq & Ho).
  cbn zeta. by repeat split.
Qed.

Lemma dict_set_fresh {V : Type} (k : string) (v : V) (d : dict V) :
  k ∉ d.*1 → dict_set k v d = d ++ [(k, v)].
Proof.
  induction d as [|[k' v'] d IH]; [done|].
  cbn [fmap list_fmap fst]. rewrite not_elem_of_cons. intros [Hne Hd].
  cbn [dict_set app]. destruct (String.eqb_spec k' k); [congruence|].
  by rewrite IH.
Qed.

Lemma for_speakers_keys (fuel : nat) (speakers : list string) :
  ∀ (acc d : dict number) (w w' : world),
    NoDup (acc.*1 ++ speakers) →
    for_speakers fuel speakers acc w = (Return d, w') →
    d.*1 = acc.*1 ++ speakers.
Proof.
  induction speakers as [|speaker rest IH]; intros acc d w w' Hnd.
  - cbn. intros [= <- _]. by rewrite app_nil_r.
  - cbn [for_speakers]. unfold mbind, M_bind.
    destruct (scrape_politifact_for_speaker fuel speaker w)
      as [[sts|e|] w1]; [|done..].
    assert (Hfresh : speaker ∉ acc.*1).
    { apply NoDup_app in Hnd as (_ & Hdis & _). intros Hin.
      apply (Hdis speaker Hin), list_elem_of_here. }
    rewrite dict_set_fresh by done. intros Hrun.
    apply IH in Hrun.
    + rewrite Hrun, fmap_app. cbn. by rewrite <- app_assoc.
    + rewrite fmap_app. cbn. by rewrite <- app_assoc.
Qed.

Lemma identify_speakers_NoDup (x : iterable) : NoDup (identify_speakers x).
Proof. unfold identify_speakers. apply NoDup_elements. Qed.

Lemma analysis_cases (fuel : nat) (url : string) (w w' : world)
    (d : dict number) :
  analyze_speakers_in_article fuel url w = (Return d, w') →
  d = []
  ∨ ∃ statements w1,
      get_article_text url w = (Return (Some statements), w1)
      ∧ for_speakers fuel
          (identify_speakers (Str (Text.join " " statements))) [] w1
        = (Return d, w').
Proof.
  unfold analyze_speakers_in_article, mbind, M_bind.
  destruct (get_article_text url w) as [[[statements|]|e|] w1]; [| |done..].
  - intros Hrun. right. by exists statements, w1.
  - intros [= <- _]. by left.
Qed.

(** X9: the mapping the analysis returns has one entry for each speaker
    that the pattern finds in the statements as the analysis joins them,
    and for nobody else; no name is there twice. *)
Theorem analysis_keys (fuel : nat) (url : string) (w w' : world)
    (d : dict number) :
  analyze_speakers_in_article fuel url w = (Return d, w') →
  NoDup d.*1
  ∧ ∀ statements w1,
      get_article_text url w = (Return (Some statements), w1) →
      ∀ name,
        name ∈ d.*1
        ↔ name ∈ Re.findall speaker_pattern
                   (Text.join " "
                      (Text.characters (Text.join " " statements))).
Proof.
  intros Hrun.
  pose proof identify_speakers_NoDup as Hnd.
  assert (Hin : ∀ statements name,
            name ∈ identify_speakers (Str (Text.join " " statements))
            ↔ name ∈ Re.findall speaker_pattern
                       (Text.join " "
                          (Text.characters (Text.join " " statements)))).
  { intros statements name. unfold identify_speakers.
    rewrite elem_of_elements. apply elem_of_list_to_set. }
  destruct (analysis_cases _ _ _ _ _ Hrun)
    as [->|(statements & w1 & Hget & Hfor)].
  - split; [constructor|]. intros statements w1 Hget name. revert Hrun.
    unfold analyze_speakers_in_article, mbind, M_bind. rewrite Hget.
    intros Hfor. apply for_speakers_keys in Hfor; [|apply Hnd].
    cbn [fmap list_fmap app] in Hfor. rewrite <- Hin, <- Hfor. done.
  - apply for_speakers_keys in Hfor; [|apply Hnd]. cbn in Hfor.
    split; [rewrite Hfor; apply Hnd|].
    intros statements' w1' Hget' name. rewrite Hget in Hget'.
    injection Hget' as <- <-. by rewrite Hfor, Hin.
Qed.

(** X10: since the statements are joined twice, every name in the mapping
    the analysis returns is a pair of capital letters with a space between
    them. *)
Theorem analysis_names_are_initials (fuel : nat) (url : string)
    (w w' : world) (d : dict number) :
  analyze_speakers_in_article fuel url w = (Return d, w') →
  Forall initials d.*1.
Proof.
  intros Hrun.
  destruct (analysis_cases _ _ _ _ _ Hrun)
    as [->|(statements & w1 & Hget & Hfor)]; [constructor|].
  apply for_speakers_keys in Hfor; [|apply identify_speakers_NoDup].
  cbn in Hfor. rewrite Hfor. apply Forall_forall.
  intros name. apply identify_speakers_str.
Qed.

Lemma dict_set_Forall {V : Type} (P : V → Prop) (k : string) (v : V)
    (d : dict V) :
  P v → Forall P d.*2 → Forall P (dict_set k v d).*2.
Proof.
  intros Hv. induction d as [|[k' v'] d IH]; cbn [dict_set].
  - by repeat constructor.
  - cbn [fmap list_fmap snd]. intros [Hv' Hd]%Forall_cons.
    destruct (String.eqb k' k); cbn [fmap list_fmap snd];
      constructor; auto.
Qed.

Lemma for_speakers_values (P : number → Prop) (fuel : nat)
    (speakers : list string) :
  (∀ statements, P (calculate_speaker_score statements)) →
  ∀ (acc d : dict number) (w w' : world),
    Forall P acc.*2 →
    for_speakers fuel speakers acc w = (Return d, w') →
    Forall P d.*2.
Proof.
  intros HP. induction speakers as [|speaker rest IH]; intros acc d w w' Hacc.
  - cbn. by intros [= <- _].
  - cbn [for_speakers]. unfold mbind, M_bind.
    destruct (scrape_politifact_for_speaker fuel speaker w)
      as [[sts|e|] w1]; [|done..].
    apply IH. by apply dict_set_Forall.
Qed.

(** X11: every score in the mapping the analysis returns lies between -1
    and 1. *)
Theorem analysis_scores_in_range (fuel : nat) (url : string)
    (w w' : world) (d : dict number) :
  analyze_speakers_in_article fuel url w = (Return d, w') →
  Forall (λ score, -1 <= value score <= 1)%Q d.*2.
Proof.
  intros Hrun.
  destruct (analysis_cases _ _ _ _ _ Hrun)
    as [->|(statements & w1 & Hget & Hfor)]; [constructor|].
  revert Hfor. apply for_speakers_values; [apply score_in_range|constructor].
Qed.

Lemma demo_analysis :
  analyze_speakers_in_article 3 Demo.article_url Demo.start
  = (Return [("U S", Float (1 # 2))],
     after_requests Demo.start
       [Demo.article_url; search_url 1 "U S"; search_url 2 "U S"]).
Proof. vm_compute. reflexivity. Qed.

Lemma summit_analysis :
  analyze_speakers_in_article 2 Trial.summit_url Trial.summit_world
  = (Return [("U N", Float (1 # 2)); ("E U", Float 1)],
     after_requests Trial.summit_world
       [Trial.summit_url; search_url 1 "U N"; search_url 2 "U N";
        search_url 1 "E U"; search_url 2 "E U"]).
Proof. vm_compute. reflexivity. Qed.

(** An article that names two speakers: each has its entry. *)
Lemma analysis_keys_witness :
  NoDup [("U N", Float (1 # 2)); ("E U", Float 1)].*1
  ∧ ∀ statements w1,
      get_article_text Trial.summit_url Trial.summit_world
      = (Return (Some statements), w1) →
      ∀ name,
        name ∈ [("U N", Float (1 # 2)); ("E U", Float 1)].*1
        ↔ name ∈ Re.findall speaker_pattern
                   (Text.join " "
                      (Text.characters (Text.join " " statements))).
Proof.
  apply (analysis_keys 2 Trial.summit_url Trial.summit_world
           (after_requests Trial.summit_world
              [Trial.summit_url; search_url 1 "U N"; search_url 2 "U N";
               search_url 1 "E U"; search_url 2 "E U"])).
  exact summit_analysis.
Defined.

Lemma analysis_names_are_initials_witness :
  Forall initials [("U S", Float (1 # 2))].*1.
Proof.
  apply (analysis_names_are_initials 3 Demo.article_url Demo.start
           (after_requests Demo.start
              [Demo.article_url; search_url 1 "U S"; search_url 2 "U S"])).
  exact demo_analysis.
Defined.

Lemma analysis_scores_in_range_witness :
  Forall (λ score, -1 <= value score <= 1)%Q [("U S", Float (1 # 2))].*2.
Proof.
  apply (analysis_scores_in_range 3 Demo.article_url Demo.start
           (after_requests Demo.start
              [Demo.article_url; search_url 1 "U S"; search_url 2 "U S"])).
  exact demo_analysis.
Defined.

(** ** The run as a whole *)

Section Run.

Variable float_repr : Q → string.

Lemma write_all_calls (path : string) (pieces : list string) :
  ∀ w : world,
    ∃ cs, calls (Json.write_all path pieces w).2 = calls w ++ cs
          ∧ Forall (λ c, ∃ text, c = Write path text) cs.
Proof.
  induction pieces as [|piece rest IH]; intros w.
  - exists []. cbn. by rewrite app_nil_r.
  - cbn [Json.write_all]. unfold mbind, M_bind, Os.write, Os.call.
    destruct (refused w (calls w) (Write path piece)).
    + exists [Write path piece]. split; [done|].
      constructor; [by exists piece|constructor].
    + destruct (IH (after_calls w [Write path piece])) as (cs & Hcs & Hall).
      exists (Write path piece :: cs). split.
      * rewrite Hcs. cbn. by rewrite <- app_assoc.
      * constructor; [by exists piece|done].
Qed.

Lemma write_result_calls (d : dict number) (output : string) (w : world) :
  ∃ cs, calls (write_result float_repr d output w).2 = calls w ++ cs
        ∧ Forall (of_result output) cs.
Proof.
  unfold write_result. cbn zeta.
  set (path := Os.path_join output "speaker_scores.json").
  assert (Hmake : of_result output (Makedirs output)) by (by left).
  assert (Hopen : of_result output (Open path)) by (by right; left).
  assert (Hwrite : ∀ text, of_result output (Write path text))
    by (intros text; right; right; left; by exists text).
  assert (Hclose : of_result output (Close path)) by (by right; right; right).
  unfold with_open, finally, Json.dump, mbind, M_bind, Os.makedirs,
         Os.open_w, Os.close, Os.call.
  destruct (refused w (calls w) (Makedirs output)).
  { exists [Makedirs output]. split; [done|]. by constructor. }
  set (w1 := after_calls w [Makedirs output]).
  destruct (refused w1 (calls w1) (Open path)).
  { exists [Makedirs output; Open path]. split.
    - cbn. by rewrite <- app_assoc.
    - constructor; [done|]. by constructor. }
  set (w2 := after_calls w1 [Open path]).
  destruct (write_all_calls path (Json.chunks float_repr d) w2)
    as (cs & Hcs & Hall).
  assert (Hcs' : ∀ more,
            (calls w ++ [Makedirs output; Open path] ++ cs) ++ more
            = calls w ++ Makedirs output :: Open path :: cs ++ more).
  { intros more. by rewrite <- !app_assoc. }
  assert (Hall' : ∀ more,
            Forall (of_result output) more →
            Forall (of_result output)
              (Makedirs output :: Open path :: cs ++ more)).
  { intros more Hmore. constructor; [done|]. constructor; [done|].
    apply Forall_app. split; [|done].
    eapply Forall_impl; [exact Hall|]. intros c [text ->]. apply Hwrite. }
  assert (E2 : calls w2 = calls w ++ [Makedirs output; Open path]).
  { cbn. by rewrite <- app_assoc. }
  rewrite E2, <- app_assoc in Hcs.
  destruct (Json.write_all path (Json.chunks float_repr d) w2)
    as [[[]|e|] w3]; cbn [snd] in Hcs.
  - destruct (refused w3 (calls w3) (Close path));
      exists (Makedirs output :: Open path :: cs ++ [Close path]);
      (split; [cbn; rewrite Hcs; apply Hcs'|]);
      apply Hall'; by constructor.
  - destruct (refused w3 (calls w3) (Close path));
      exists (Makedirs output :: Open path :: cs ++ [Close path]);
      (split; [cbn; rewrite Hcs; apply Hcs'|]);
      apply Hall'; by constructor.
  - exists (Makedirs output :: Open path :: cs ++ []). split.
    + cbn. rewrite Hcs, app_nil_r. done.
    + by apply Hall'.
Qed.

(** X12: when the analysis has returned and the system refuses to make
    the directory or to open the file, [main] raises that error: the
    refused call is the last the script makes of the system, so that
    nothing is written, and no more is printed. *)
Theorem main_raises_when_not_writable (fuel : nat) (url output : string)
    (w w1 : world) (speaker_scores : dict number) :
  analyze_speakers_in_article fuel url w = (Return speaker_scores, w1) →
  writable w1 [Makedirs output;
               Open (Os.path_join output "speaker_scores.json")] = false →
  ∃ cs, main float_repr fuel url output w
        = (Raised OSError, after_calls w1 cs)
        ∧ (cs = [Makedirs output]
           ∨ cs = [Makedirs output;
                   Open (Os.path_join output "speaker_scores.json")]).
Proof.
  intros Hrun Hw. rewrite main_write_result.
  unfold mbind, M_bind at 1. rewrite Hrun.
  unfold write_result. cbn zeta.
  set (path := Os.path_join output "speaker_scores.json") in *.
  unfold with_open, mbind, M_bind, Os.makedirs, Os.open_w.
  destruct (refused w1 (calls w1) (Makedirs output)) eqn:Hmake.
  - exists [Makedirs output]. rewrite (call_refused _ _ Hmake).
    by split; [|left].
  - rewrite (call_accepted _ _ Hmake).
    destruct (refused (after_calls w1 [Makedirs output])
                (calls (after_calls w1 [Makedirs output])) (Open path))
      eqn:Hopen.
    + exists [Makedirs output; Open path]. rewrite (call_refused _ _ Hopen).
      rewrite after_calls_app. by split; [|right].
    + exfalso. revert Hw. unfold writable. cbn [accepts].
      cbn [after_calls calls refused] in Hopen.
      by rewrite Hmake, Hopen.
Qed.

(** X13: when the analysis raises or runs out of fuel, so does [main], in
    the world the analysis left: nothing has been asked of the file
    system, so that the directories and files are those there were before
    the run, without the scores of the speakers looked up so far. *)
Theorem main_passes_failure_on (fuel : nat) (url output : string)
    (w : world) :
  (∀ e w1,
     analyze_speakers_in_article fuel url w = (Raised e, w1) →
     main float_repr fuel url output w = (Raised e, w1)
     ∧ calls w1 = calls w)
  ∧ (∀ w1,
       analyze_speakers_in_article fuel url w = (OutOfFuel, w1) →
       main float_repr fuel url output w = (OutOfFuel, w1)
       ∧ calls w1 = calls w).
Proof.
  pose proof (analysis_grows fuel url w) as (_ & _ & Hc & _).
  split; [intros e w1 Hrun|intros w1 Hrun];
    rewrite main_write_result; unfold mbind, M_bind at 1;
    rewrite Hrun in *; by repeat split.
Qed.

(** X14: however a run ends, all it asks of the file system is to make
    the directory asked for and to open, write and close the file
    [speaker_scores.json] in it. *)
Theorem main_touches_one_file (fuel : nat) (url output : string)
    (w : world) :
  let w' := (main float_repr fuel url output w).2 in
  ∃ cs, calls w' = calls w ++ cs ∧ Forall (of_result output) cs.
Proof.
  cbn zeta. remember (main float_repr fuel url output w) as r eqn:Hr.
  rewrite main_write_result in Hr. unfold mbind, M_bind in Hr.
  pose proof (analysis_grows fuel url w) as (_ & _ & Hc & _).
  destruct (analyze_speakers_in_article fuel url w) as [[d|e|] w1];
    cbn [snd] in Hc.
  2,3: subst r; exists []; cbn [snd]; by rewrite Hc, app_nil_r.
  destruct (write_result_calls d output w1) as (cs & Hcs & Hall).
  exists cs. subst r. by rewrite Hcs, Hc.
Qed.

End Run.

(** A directory without a name: the system refuses to make it. *)
Lemma main_raises_when_not_writable_witness :
  ∃ cs,
    main Demo.float_repr 3 Demo.article_url EmptyString Demo.start
    = (Raised OSError,
       after_calls
         (after_requests Demo.start
            [Demo.article_url; search_url 1 "U S"; search_url 2 "U S"])
         cs)
    ∧ (cs = [Makedirs EmptyString]
       ∨ cs = [Makedirs EmptyString;
               Open (Os.path_join EmptyString "speaker_scores.json")]).
Proof.
  apply (main_raises_when_not_writable Demo.float_repr 3 Demo.article_url
           EmptyString Demo.start _ [("U S", Float (1 # 2))]).
  - vm_compute. reflexivity.
  - vm_compute. reflexivity.
Defined.

Lemma main_passes_failure_on_witness :
  let w1 := after_requests Trial.broken_world
              [Trial.broken_url; search_url 1 "A L"; search_url 2 "A L"] in
  main Demo.float_repr 4 Trial.broken_url "out" Trial.broken_world
  = (Raised ParseError, w1)
  ∧ calls w1 = calls Trial.broken_world.
Proof.
  apply (proj1 (main_passes_failure_on Demo.float_repr 4 Trial.broken_url
                  "out" Trial.broken_world)).
  vm_compute. reflexivity.
Defined.

(** ** Speakers, read as the function is written *)

(** X15: whatever [identify_speakers] is handed, each speaker it returns
    is a run of two capitalized words, one white space character between
    them, that stands in the text it joined. *)
Theorem identify_speakers_finds_runs (article_text : iterable)
    (name : string) :
  name ∈ identify_speakers article_text →
  two_capitalized_words name
  ∧ ∃ before after,
      Text.join " " (iter article_text) = before +:+ name +:+ after.
Proof. apply identify_speakers_sound. Qed.

Lemma identify_speakers_finds_runs_witness :
  two_capitalized_words "Mary Ann"
  ∧ ∃ before after,
      Text.join " " (iter (Strs ["said Mary Ann"; "Smith then"]))
      = before +:+ "Mary Ann" +:+ after.
Proof.
  apply (identify_speakers_finds_runs (Strs ["said Mary Ann"; "Smith then"])).
  vm_compute. apply list_elem_of_here.
Defined.

(** ** White space on the page *)

Lemma lstrip_blank (a s : string) :
  blank a → Text.lstrip (a +:+ s) = Text.lstrip s.
Proof.
  induction a as [|c a IH]; [done|]. intros [Hc Ha].
  rewrite append_cons. cbn [Text.lstrip]. rewrite Hc. by apply IH.
Qed.

Lemma rstrip_all_blank (b : string) : blank b → Text.rstrip b = EmptyString.
Proof.
  induction b as [|c b IH]; [done|]. intros [Hc Hb].
  cbn [Text.rstrip]. by rewrite IH, Hc.
Qed.

Lemma rstrip_blank (s b : string) :
  blank b → Text.rstrip (s +:+ b) = Text.rstrip s.
Proof.
  intros Hb. induction s as [|c s IH].
  - rewrite append_nil. by apply rstrip_all_blank.
  - rewrite append_cons. cbn [Text.rstrip]. by rewrite IH.
Qed.

Lemma rstrip_trimmed (s : string) :
  match last_char s with
  | Some c => Text.is_space c = false
  | None => True
  end →
  Text.rstrip s = s.
Proof.
  induction s as [|c s IH]; [done|].
  destruct s as [|d s].
  - cbn. by intros ->.
  - intros Hlast. specialize (IH Hlast).
    remember (String d s) as t eqn:Ht. cbn [Text.rstrip]. rewrite IH.
    by subst t.
Qed.

Lemma strip_padded (a t b : string) :
  blank a → blank b → trimmed t →
  Text.strip (a +:+ t +:+ b) = t.
Proof.
  intros Ha Hb [Hfirst Hlast]. unfold Text.strip.
  rewrite lstrip_blank by done.
  destruct t as [|c t].
  - rewrite append_nil.
    replace (Text.lstrip b) with EmptyString; [done|].
    clear -Hb. induction b as [|c b IH]; [done|].
    destruct Hb as [Hc Hb]. cbn [Text.lstrip]. rewrite Hc. by apply IH.
  - rewrite append_cons. cbn [Text.lstrip]. rewrite Hfirst.
    rewrite <- append_cons, rstrip_blank by done.
    by apply rstrip_trimmed.
Qed.

(** X16: white space around the text of the quote link and around the
    [alt] of the rating image makes no difference to the record: it is the
    text and the label without it. *)
Theorem read_result_drops_padding (a t b c r d : string) :
  blank a → blank b → blank c → blank d →
  trimmed t → trimmed r →
  read_result (Item (Some (a +:+ t +:+ b)) (Some (c +:+ r +:+ d)))
  = Return (Statement t r).
Proof.
  intros Ha Hb Hc Hd Ht Hr. unfold read_result.
  cbn [statement_quote meter_alt]. by rewrite !strip_padded.
Qed.

Lemma read_result_drops_padding_witness :
  read_result
    (Item (Some ("  " +:+ "Taxes went down" +:+ Json.newline))
          (Some (Json.newline +:+ "Mostly True" +:+ " ")))
  = Return (Statement "Taxes went down" "Mostly True").
Proof.
  apply (read_result_drops_padding "  " "Taxes went down" Json.newline
           Json.newline "Mostly True" " ");
    vm_compute; repeat split.
Defined.

(** ** Names in the result file *)

Lemma every_append (cls : ascii → bool) (a b : string) :
  every cls a → every cls b → every cls (a +:+ b).
Proof.
  intros Ha Hb. induction a as [|c a IH]; [done|].
  destruct Ha as [Hc Ha]. rewrite append_cons. split; auto.
Qed.

Lemma escape_printable (c : ascii) : every printable (Json.escape c).
Proof.
  destruct c as [[] [] [] [] [] [] [] []]; vm_compute; repeat split.
Qed.

Lemma unescape_escape (c : ascii) (r : string) :
  unescape (Json.escape c +:+ r) = Some (c, r).
Proof.
  destruct c as [[] [] [] [] [] [] [] []]; reflexivity.
Qed.

Lemma escaped_inj (s : string) :
  ∀ s', Json.escaped s = Json.escaped s' → s = s'.
Proof.
  induction s as [|c s IH]; intros [|c' s'] H; [done| | |].
  - cbn [Json.escaped] in H. apply (f_equal unescape) in H.
    by rewrite unescape_escape in H.
  - cbn [Json.escaped] in H. apply (f_equal unescape) in H.
    by rewrite unescape_escape in H.
  - cbn [Json.escaped] in H. apply (f_equal unescape) in H.
    rewrite !unescape_escape in H. injection H as <- H.
    f_equal. by apply IH.
Qed.

Lemma append_inj_r (a b t : string) : a +:+ t = b +:+ t → a = b.
Proof.
  intros H.
  assert (Hlen : String.length a = String.length b).
  { apply (f_equal String.length) in H. rewrite !length_append in H. lia. }
  revert b H Hlen. induction a as [|x a IH]; intros [|y b] H Hlen;
    [done|done|done|].
  rewrite !append_cons in H. injection H as <- H.
  f_equal. apply IH; [done|]. cbn in Hlen. lia.
Qed.

(** X17: a name as it is written to the result file is printable ASCII,
    whatever characters it has (a line break in a name does not break the
    line), and two names are written alike only when they are the same. *)
Theorem names_written_plainly :
  (∀ s, every printable (Json.encode_str s))
  ∧ (∀ s s', Json.encode_str s = Json.encode_str s' → s = s').
Proof.
  split.
  - intros s. unfold Json.encode_str. split; [done|].
    apply every_append; [|by split].
    induction s as [|c s IH]; [done|].
    cbn [Json.escaped]. apply every_append; [apply escape_printable|done].
  - intros s s'. unfold Json.encode_str. intros [= H].
    by apply append_inj_r, escaped_inj in H.
Qed.

(** ** What a run asks the network for *)

Lemma get_article_text_requests (url : string) (w : world) :
  requests (get_article_text url w).2 = requests w ++ [url].
Proof.
  destruct (failure (net w url)) as [e|] eqn:Hf.
  - by rewrite (get_article_text_failed w url e Hf).
  - unfold failure in Hf.
    destruct (net w url) as [e|status error body] eqn:Hnet; [done|].
    destruct (is_error status) eqn:Hok; [done|].
    by rewrite (get_article_text_ok w url status error body Hnet Hok).
Qed.

(** The pages asked for when the speakers are looked up one after the
    other, [counts] giving the number of pages for each. *)
Lemma for_speakers_requests (fuel : nat) (speakers : list string) :
  ∀ (acc d : dict number) (w w' : world),
    for_speakers fuel speakers acc w = (Return d, w') →
    ∃ counts : list nat,
      length counts = length speakers
      ∧ Forall (λ k, k ≤ fuel)%nat counts
      ∧ requests w'
        = requests w
          ++ concat (zip_with (λ name k, page_urls name 1 k) speakers counts).
Proof.
  induction speakers as [|speaker rest IH]; intros acc d w w'.
  - cbn. intros [= _ <-]. exists []. by rewrite app_nil_r.
  - cbn [for_speakers]. unfold mbind, M_bind.
    destruct (scrape_world fuel speaker w) as (k & lines & Hk & _ & Hw).
    destruct (scrape_politifact_for_speaker fuel speaker w)
      as [[sts|e|] w1]; [|done..].
    cbn [snd] in Hw. subst w1. intros Hrun.
    apply IH in Hrun as (counts & Hlen & Hall & Hreq).
    exists (k :: counts). cbn [length zip_with concat].
    split; [by rewrite Hlen|]. split; [by constructor|].
    rewrite Hreq. cbn. by rewrite <- app_assoc.
Qed.

(** X18: a run that returns a mapping has asked for the article once and
    then, for each name in the mapping in turn, for pages 1, 2, 3, ... of
    that name, at most as many as the fuel: nothing else is requested. *)
Theorem analysis_requests (fuel : nat) (url : string) (w w' : world)
    (d : dict number) :
  analyze_speakers_in_article fuel url w = (Return d, w') →
  ∃ counts : list nat,
    length counts = length d
    ∧ Forall (λ k, k ≤ fuel)%nat counts
    ∧ requests w'
      = requests w
        ++ url :: concat (zip_with (λ name k, page_urls name 1 k) d.*1 counts).
Proof.
  intros Hrun. pose proof (get_article_text_requests url w) as Hget.
  revert Hrun. unfold analyze_speakers_in_article, mbind, M_bind.
  destruct (get_article_text url w) as [[[statements|]|e|] w1];
    cbn [snd] in Hget; [| |done..].
  - intros Hfor.
    assert (Hkeys : d.*1
                    = identify_speakers (Str (Text.join " " statements))).
    { apply for_speakers_keys in Hfor; [exact Hfor|].
      apply identify_speakers_NoDup. }
    apply for_speakers_requests in Hfor as (counts & Hlen & Hall & Hreq).
    exists counts. rewrite Hkeys, Hreq, Hget, <- app_assoc.
    split; [|done].
    by rewrite Hlen, <- Hkeys, length_fmap.
  - intros [= <- <-]. exists []. by rewrite Hget.
Qed.

Lemma analysis_requests_witness :
  ∃ counts : list nat,
    length counts = length [("U S", Float (1 # 2))]
    ∧ Forall (λ k, k ≤ 3)%nat counts
    ∧ requests
        (after_requests Demo.start
           [Demo.article_url; search_url 1 "U S"; search_url 2 "U S"])
      = requests Demo.start
        ++ Demo.article_url
           :: concat (zip_with (λ name k, page_urls name 1 k)
                        [("U S", Float (1 # 2))].*1 counts).
Proof.
  apply (analysis_requests 3 Demo.article_url Demo.start).
  vm_compute. reflexivity.
Defined.
